(** * EmbedFS: a read-only virtual file system over embedded arrays

    Shallow embedding of [src/EmbedFS.cpp] (the minimal variant with the
    [EmbedFSFile] helper, and the full variant that synthesizes
    directories), and proofs about path normalization, the resolver
    ([open] / [exists]), the file cursor ([read] / [seek] / [close]) and
    the mount life cycle ([begin] / [end]).

    Conventions.
    - [std::string] is [string]; the few [std::string] members the code
      calls are collected in [Module StdString].
    - A nullable pointer is an [option]: [None] is [nullptr].
    - [size_t] is an unsigned integer of [SIZE_BITS] bits, at least 32:
      32 on the targets the library is written for (ESP32 / ESP8266,
      [ILP32]), 64 on a desktop build ([LP64]). Values are [Z] in
      [0, 2^SIZE_BITS) and every arithmetic operation that can leave that
      range is wrapped explicitly with [wrap].
    - The three parallel arrays [names_], [data_], [sizes_] are always
      read at one common index [i < count_]; the loops over them are
      recursions over the list of the triples. *)

From Stdlib Require Import ZArith Lia List Bool Ascii String.
Import ListNotations.

Local Open Scope string_scope.
Local Open Scope list_scope.

(** ** [std::string] members used by the code *)

Module StdString.

Definition slash : ascii := "/"%char.

(** [s.empty()] *)
Definition empty (s : string) : bool :=
  match s with
  | EmptyString => true
  | String _ _ => false
  end.

(** [s.size()] *)
Definition size (s : string) : nat := String.length s.

(** [s.front() == c]; the code only evaluates it behind [!s.empty()]. *)
Definition front_is (s : string) (c : ascii) : bool :=
  match s with
  | EmptyString => false
  | String a _ => Ascii.eqb a c
  end.

(** [s.back() == c]; the code only evaluates it behind [!s.empty()]. *)
Fixpoint back_is (s : string) (c : ascii) : bool :=
  match s with
  | EmptyString => false
  | String a EmptyString => Ascii.eqb a c
  | String _ t => back_is t c
  end.

(** [s.erase(0, 1)] *)
Definition erase_front (s : string) : string :=
  match s with
  | EmptyString => EmptyString
  | String _ t => t
  end.

(** [s.pop_back()] *)
Fixpoint pop_back (s : string) : string :=
  match s with
  | EmptyString => EmptyString
  | String _ EmptyString => EmptyString
  | String a t => String a (pop_back t)
  end.

(** [s.find(c)]; [None] is [std::string::npos]. *)
Fixpoint find (s : string) (c : ascii) : option nat :=
  match s with
  | EmptyString => None
  | String a t =>
      if Ascii.eqb a c then Some 0%nat else option_map S (find t c)
  end.

(** [s.substr(pos, n)] *)
Definition substr (s : string) (pos n : nat) : string := substring pos n s.

(** [s.substr(pos)] *)
Definition substr_from (s : string) (pos : nat) : string :=
  substring pos (String.length s - pos) s.

(** [s.compare(0, n, t) == 0]: the first [n] characters of [s] are [t]. *)
Definition compare_eq (s : string) (n : nat) (t : string) : bool :=
  String.eqb (substring 0 n s) t.

End StdString.

Import StdString.

(** ** Path normalization

    The same five lines open every loop of the full variant:
<<
    if (!p.empty() && p.front() == '/') p.erase(0, 1);
    while (!p.empty() && p.back() == '/') p.pop_back();
>>
*)

Definition strip_leading (p : string) : string :=
  if negb (empty p) && front_is p slash then erase_front p else p.

(** The [while] loop, with the number of iterations left as fuel. *)
Fixpoint strip_trailing_loop (fuel : nat) (p : string) : string :=
  match fuel with
  | O => p
  | S k =>
      if negb (empty p) && back_is p slash
      then strip_trailing_loop k (pop_back p)
      else p
  end.

(** Each iteration removes one character, so [size p] iterations suffice
    (see [strip_trailing_exit]). *)
Definition strip_trailing (p : string) : string :=
  strip_trailing_loop (size p) p.

Definition normalize (p : string) : string :=
  strip_trailing (strip_leading p).

(** [display = p.empty() ? "/" : "/" + p] *)
Definition display_of (p : string) : string :=
  if empty p then "/" else ("/" ++ p)%string.

(** The loop condition [!p.empty() && p.back() == '/']. *)
Definition ends_with_slash (p : string) : bool :=
  negb (empty p) && back_is p slash.

(** ** [size_t] and [uint32_t] *)

Local Open Scope Z_scope.

(** The width of [size_t] on the platform the code is compiled for. *)
Class Target : Type := mkTarget {
  SIZE_BITS : Z;
  SIZE_BITS_ge_32 : 32 <= SIZE_BITS
}.

Definition ILP32 : Target := mkTarget 32 (Z.le_refl 32).

Definition LP64 : Target :=
  mkTarget 64 (fun H : (32 ?= 64) = Gt => ltac:(discriminate H)).

Definition SIZE_MOD {T : Target} : Z := 2 ^ SIZE_BITS.

Definition UINT32_MOD : Z := 2 ^ 32.

(** The value a [size_t] expression has after wrap-around. *)
Definition wrap {T : Target} (z : Z) : Z := z mod SIZE_MOD.

(** The values a [size_t] variable can hold. *)
Definition in_size_t {T : Target} (z : Z) : Prop := 0 <= z < SIZE_MOD.

(** The values a [uint32_t] variable can hold. *)
Definition in_uint32 (z : Z) : Prop := 0 <= z < UINT32_MOD.

(** ** The entry index

    [names_[i]], [data_[i]], [sizes_[i]] for [i < count_]. A name or a
    data pointer may be null. *)

Record Entry : Type := mkEntry {
  e_name : option string;
  e_data : option (list Byte.byte);
  e_size : Z
}.

Definition EmbedFSImpl : Type := list Entry.

Fixpoint zip3 (names : list (option string))
              (data : list (option (list Byte.byte)))
              (sizes : list Z) : list Entry :=
  match names, data, sizes with
  | n :: names', d :: data', s :: sizes' =>
      mkEntry n d s :: zip3 names' data' sizes'
  | _, _, _ => []
  end.

(** [EmbedFSImpl(file_names, file_data, file_sizes, file_count)] *)
Definition EmbedFSImpl_make (file_names : list (option string))
                            (file_data : list (option (list Byte.byte)))
                            (file_sizes : list Z)
                            (file_count : Z) : EmbedFSImpl :=
  firstn (Z.to_nat file_count) (zip3 file_names file_data file_sizes).

(** ** [EmbeddedFileImpl]: the cursor over one entry *)

Inductive SeekMode : Type := SeekSet | SeekCur | SeekEnd.

(** What follows the last slash of [s], when [s] has a slash:
    [strrchr(s, '/') + 1]. *)
Fixpoint strrchr_tail (s : string) : option string :=
  match s with
  | EmptyString => None
  | String a t =>
      match strrchr_tail t with
      | Some r => Some r
      | None => if Ascii.eqb a slash then Some t else None
      end
  end.

(** The [_name] both constructors derive from [_path]. *)
Definition name_of_path (path : option string) : option string :=
  match path with
  | None => None
  | Some s =>
      match strrchr_tail s with
      | Some (String a r) => Some (String a r)
      | _ => Some s
      end
  end.

(** [buf[i] = b]; a write past the end of the caller's buffer is outside
    the language, the model leaves the buffer as it is there. *)
Fixpoint store (buf : list Byte.byte) (i : nat) (b : Byte.byte)
  : list Byte.byte :=
  match buf, i with
  | [], _ => []
  | _ :: t, O => b :: t
  | a :: t, S j => a :: store t j b
  end.

(** [for (i = from; i < from + n; ++i) buf[i] = data[pos + i];] *)
Fixpoint copy_loop (n from : nat) (data : list Byte.byte) (pos : nat)
                   (buf : list Byte.byte) : list Byte.byte :=
  match n with
  | O => buf
  | S k =>
      copy_loop k (S from) data pos
        (store buf from (nth (pos + from) data Byte.x00))
  end.

Module EmbeddedFileImpl.

Record t : Type := mk {
  _path : option string;
  _name : option string;
  _data : option (list Byte.byte);
  _size : Z;
  _pos : Z
}.

(** The constructor. *)
Definition make (path : option string) (data : option (list Byte.byte))
                (size : Z) : t :=
  mk path (name_of_path path) data size 0.

Definition set_pos (f : t) (pos : Z) : t :=
  mk (_path f) (_name f) (_data f) (_size f) pos.

(** [read(buf, size)]: the count returned, the buffer and the handle
    afterwards. *)
Definition read {T : Target} (f : t) (buf : list Byte.byte) (size : Z)
  : Z * list Byte.byte * t :=
  match _data f with
  | None => (0, buf, f)
  | Some d =>
      if _size f <=? _pos f then (0, buf, f)
      else
        let remaining := wrap (_size f - _pos f) in
        let toRead := if size <? remaining then size else remaining in
        (toRead,
         copy_loop (Z.to_nat toRead) 0%nat d (Z.to_nat (_pos f)) buf,
         set_pos f (wrap (_pos f + toRead)))
  end.

(** [seek(pos, mode)] with [pos] a [uint32_t]. *)
Definition seek {T : Target} (f : t) (pos : Z) (mode : SeekMode)
  : bool * t :=
  let newpos :=
    match mode with
    | SeekSet => wrap pos
    | SeekCur => wrap (_pos f + pos)
    | SeekEnd => wrap (_size f + pos)
    end in
  if _size f <? newpos then (false, f) else (true, set_pos f newpos).

Definition position (f : t) : Z := _pos f.
Definition size (f : t) : Z := _size f.

(** [void close() override {}] *)
Definition close (f : t) : t := f.

(** [operator bool] *)
Definition valid (f : t) : bool :=
  match _data f with
  | Some _ => true
  | None => false
  end.

End EmbeddedFileImpl.

(** ** [EmbeddedDirImpl]: the cursor over synthesized children *)

Module EmbeddedDirImpl.

Record Entry : Type := mkEntry {
  path : string;
  isDir : bool
}.

Record t : Type := mk {
  _path : option string;
  _name : option string;
  _owner : option EmbedFSImpl;
  _entries : list Entry;
  _index : Z
}.

Definition make (path : option string) (owner : option EmbedFSImpl)
                (entries : list Entry) : t :=
  mk path (name_of_path path) owner entries 0.

Definition set_index (d : t) (i : Z) : t :=
  mk (_path d) (_name d) (_owner d) (_entries d) i.

Definition rewindDirectory (d : t) : t := set_index d 0.

(** [seekDir(position)] with [position] a [long]. *)
Definition seekDir {T : Target} (d : t) (position : Z) : bool * t :=
  if position <? 0 then (false, d)
  else
    let n := Z.of_nat (List.length (_entries d)) in
    let pos := wrap position in
    let pos := if n <? pos then n else pos in
    (true, set_index d pos).

(** [getNextFileName(bool *isDir)]: the name and flag delivered (if
    any) and the handle afterwards. *)
Definition getNextFileName {T : Target} (d : t) : option Entry * t :=
  if Z.of_nat (List.length (_entries d)) <=? _index d then (None, d)
  else
    (nth_error (_entries d) (Z.to_nat (_index d)),
     set_index d (wrap (_index d + 1))).

(** [operator bool] *)
Definition valid (d : t) : bool :=
  match _path d with
  | Some _ => true
  | None => false
  end.

End EmbeddedDirImpl.

(** The two implementations of the host's [FileImpl] interface, and the
    shared pointer to one ([None]: the empty [FileImplPtr()]). *)
Inductive FileImpl : Type :=
| FileH (f : EmbeddedFileImpl.t)
| DirH (d : EmbeddedDirImpl.t).

Definition FileImplPtr : Type := option FileImpl.

(** The virtual [operator bool]. *)
Definition FileImpl_valid (h : FileImpl) : bool :=
  match h with
  | FileH f => EmbeddedFileImpl.valid f
  | DirH d => EmbeddedDirImpl.valid d
  end.

(** The virtual [isDirectory()]. *)
Definition FileImpl_isDirectory (h : FileImpl) : bool :=
  match h with
  | FileH _ => false
  | DirH _ => true
  end.

(** The host framework's [File] holds a [FileImplPtr]; it converts to
    [true] when the pointer is set and the implementation converts to
    [true]. *)
Definition File : Type := FileImplPtr.

Definition File_valid (f : File) : bool :=
  match f with
  | None => false
  | Some h => FileImpl_valid h
  end.

(** ** The minimal variant of the resolver

    Names are compared with [strcmp], without normalization; there are
    no directories. *)

Module Minimal.

(** The entry the loop of [open] (and of [exists]) stops at. *)
Fixpoint lookup (this : EmbedFSImpl) (path : string) : option Entry :=
  match this with
  | [] => None
  | e :: rest =>
      match e_name e with
      | Some n => if String.eqb n path then Some e else lookup rest path
      | None => lookup rest path
      end
  end.

Definition open (this : EmbedFSImpl) (path : string) : FileImplPtr :=
  match lookup this path with
  | Some e =>
      Some (FileH (EmbeddedFileImpl.make (Some path) (e_data e) (e_size e)))
  | None => None
  end.

Fixpoint exists_ (this : EmbedFSImpl) (path : string) : bool :=
  match this with
  | [] => false
  | e :: rest =>
      match e_name e with
      | Some n => if String.eqb n path then true else exists_ rest path
      | None => exists_ rest path
      end
  end.

End Minimal.

(** ** The full variant of the resolver *)

Module Full.

(** First loop of [open]: the first entry whose normalized name is [p]. *)
Fixpoint find_exact (this : EmbedFSImpl) (p : string) : option Entry :=
  match this with
  | [] => None
  | e :: rest =>
      match e_name e with
      | None => find_exact rest p
      | Some n =>
          let nj := normalize n in
          if String.eqb nj p then Some e else find_exact rest p
      end
  end.

(** The [addUnique] lambda, on the vector it captures. *)
Fixpoint addUnique (entries : list EmbeddedDirImpl.Entry)
                   (path : string) (isDir : bool)
  : list EmbeddedDirImpl.Entry :=
  match entries with
  | [] => [EmbeddedDirImpl.mkEntry path isDir]
  | entry :: rest =>
      if String.eqb (EmbeddedDirImpl.path entry) path
      then
        (if isDir && negb (EmbeddedDirImpl.isDir entry)
         then EmbeddedDirImpl.mkEntry (EmbeddedDirImpl.path entry) true
         else entry) :: rest
      else entry :: addUnique rest path isDir
  end.

(** The child a remainder names: up to its first slash, a directory
    when there is one. *)
Definition child_of (remainder : string) : string * bool :=
  match find remainder slash with
  | Some slashPos => (substr remainder 0 slashPos, true)
  | None => (remainder, false)
  end.

(** One iteration of the second loop of [open]. *)
Definition scan_step (p prefix : string)
                     (entries : list EmbeddedDirImpl.Entry) (e : Entry)
  : list EmbeddedDirImpl.Entry :=
  match e_name e with
  | None => entries
  | Some n =>
      let fn := normalize n in
      if empty p then
        if empty fn then entries
        else
          let '(childName, isDir) := child_of fn in
          let childPath := ("/" ++ childName)%string in
          addUnique entries childPath isDir
      else
        if (size fn <=? size prefix)%nat
           || negb (compare_eq fn (size prefix) prefix)
        then entries
        else
          let remainder := substr_from fn (size prefix) in
          if empty remainder then entries
          else
            let '(childName, isDir) := child_of remainder in
            let childPath := ((("/" ++ p) ++ "/") ++ childName)%string in
            addUnique entries childPath isDir
  end.

(** The second loop of [open]. *)
Fixpoint scan (this : EmbedFSImpl) (p prefix : string)
              (entries : list EmbeddedDirImpl.Entry)
  : list EmbeddedDirImpl.Entry :=
  match this with
  | [] => entries
  | e :: rest => scan rest p prefix (scan_step p prefix entries e)
  end.

(** [entries.empty()] *)
Definition is_nil (entries : list EmbeddedDirImpl.Entry) : bool :=
  match entries with
  | [] => true
  | _ :: _ => false
  end.

(** [prefix = p.empty() ? "" : p + '/'] *)
Definition prefix_of (p : string) : string :=
  if empty p then "" else (p ++ "/")%string.

Definition open (this : EmbedFSImpl) (path : option string) : FileImplPtr :=
  match path with
  | None => None
  | Some path =>
      let p := normalize path in
      let display := display_of p in
      match find_exact this p with
      | Some e =>
          Some (FileH (EmbeddedFileImpl.make
                         (Some display) (e_data e) (e_size e)))
      | None =>
          let entries := scan this p (prefix_of p) [] in
          if negb (is_nil entries) || empty p
          then Some (DirH (EmbeddedDirImpl.make
                             (Some display) (Some this) entries))
          else None
      end
  end.

(** Second loop of [exists]: some entry lies under [prefix]. *)
Fixpoint exists_prefix (this : EmbedFSImpl) (prefix : string) : bool :=
  match this with
  | [] => false
  | e :: rest =>
      match e_name e with
      | None => exists_prefix rest prefix
      | Some n =>
          let fn := normalize n in
          if empty prefix
             || ((size prefix <? size fn)%nat
                 && compare_eq fn (size prefix) prefix)
          then true
          else exists_prefix rest prefix
      end
  end.

Definition exists_ (this : EmbedFSImpl) (path : option string) : bool :=
  match path with
  | None => false
  | Some path =>
      let p := normalize path in
      if empty p then true
      else
        match find_exact this p with
        | Some _ => true
        | None => exists_prefix this (prefix_of p)
        end
  end.

(** [EmbeddedDirImpl::openNextFile]: the child handle and the directory
    handle afterwards. *)
Definition openNextFile {T : Target} (d : EmbeddedDirImpl.t)
  : FileImplPtr * EmbeddedDirImpl.t :=
  if Z.of_nat (List.length (EmbeddedDirImpl._entries d))
       <=? EmbeddedDirImpl._index d
  then (None, d)
  else
    match EmbeddedDirImpl._owner d with
    | None => (None, d)
    | Some owner =>
        let current := EmbeddedDirImpl._index d in
        let d' := EmbeddedDirImpl.set_index d (wrap (current + 1)) in
        (open owner
           (option_map EmbeddedDirImpl.path
              (nth_error (EmbeddedDirImpl._entries d) (Z.to_nat current))),
         d')
    end.

End Full.

(** ** [int]

    The value of [(int)z] for a [size_t] [z]: [int] has 32 bits on every
    target, and the conversion keeps the low 32 bits, read as two's
    complement. *)

Definition to_int (z : Z) : Z := (z + 2 ^ 31) mod 2 ^ 32 - 2 ^ 31.

(** ** [EmbedFSFile]: the compat reader of the minimal variant *)

Module EmbedFSFile.

Record t : Type := mk {
  dataPtr_ : option (list Byte.byte);
  dataSize_ : Z;
  pos_ : Z
}.

(** [EmbedFSFile()] *)
Definition empty_file : t := mk None 0 0.

(** [EmbedFSFile(dataPtr, dataSize)] *)
Definition make (dataPtr : option (list Byte.byte)) (dataSize : Z) : t :=
  mk dataPtr dataSize 0.

(** [operator bool] *)
Definition valid (f : t) : bool :=
  match dataPtr_ f with
  | Some _ => true
  | None => false
  end.

Definition size (f : t) : Z := dataSize_ f.
Definition position (f : t) : Z := pos_ f.

Definition seek (f : t) (pos : Z) : bool * t :=
  match dataPtr_ f with
  | None => (false, f)
  | Some _ =>
      if dataSize_ f <? pos then (false, f)
      else (true, mk (dataPtr_ f) (dataSize_ f) pos)
  end.

Definition read {T : Target} (f : t) (buffer : list Byte.byte) (len : Z)
  : Z * list Byte.byte * t :=
  match dataPtr_ f with
  | None => (0, buffer, f)
  | Some d =>
      if dataSize_ f <=? pos_ f then (0, buffer, f)
      else
        let remaining := wrap (dataSize_ f - pos_ f) in
        let toRead := if len <? remaining then len else remaining in
        (toRead,
         copy_loop (Z.to_nat toRead) 0%nat d (Z.to_nat (pos_ f)) buffer,
         mk (dataPtr_ f) (dataSize_ f) (wrap (pos_ f + toRead)))
  end.

Definition close (f : t) : t := mk None 0 0.

(** [available()] *)
Definition available {T : Target} (f : t) : Z :=
  match dataPtr_ f with
  | None => 0
  | Some _ => to_int (wrap (dataSize_ f - pos_ f))
  end.

(** [int read()]: the next byte, or [-1] at the end and on a handle
    without data; and the handle afterwards. *)
Definition read_byte {T : Target} (f : t) : Z * t :=
  match dataPtr_ f with
  | None => (-1, f)
  | Some d =>
      if dataSize_ f <=? pos_ f then (-1, f)
      else
        (Z.of_N (Byte.to_N (nth (Z.to_nat (pos_ f)) d Byte.x00)),
         mk (dataPtr_ f) (dataSize_ f) (wrap (pos_ f + 1)))
  end.

(** A client's read loop, as in the example sketch,
    [while (f.available()) out.write(f.read());],
    with the number of iterations left as fuel. *)
Fixpoint drain {T : Target} (fuel : nat) (f : t) : list Z * t :=
  match fuel with
  | O => ([], f)
  | S k =>
      if available f =? 0 then ([], f)
      else
        let '(b, f') := read_byte f in
        let '(bs, f'') := drain k f' in
        (b :: bs, f'')
  end.

End EmbedFSFile.

(** ** [EmbedFSFS]: the mount life cycle (full variant) *)

Module EmbedFSFS.

Record t : Type := mk {
  _impl : option EmbedFSImpl;
  fileNames_ : option (list (option string));
  fileData_ : option (list (option (list Byte.byte)));
  fileSizes_ : option (list Z);
  fileCount_ : Z
}.

(** The constructor: nothing mounted. *)
Definition init : t := mk None None None None 0.

Definition begin (fs : t)
                 (file_names : option (list (option string)))
                 (file_data : option (list (option (list Byte.byte))))
                 (file_sizes : option (list Z))
                 (file_count : Z) : bool * t :=
  match file_names, file_data, file_sizes with
  | Some names, Some data, Some sizes =>
      if file_count =? 0 then (false, fs)
      else
        (true,
         mk (Some (EmbedFSImpl_make names data sizes file_count))
            file_names file_data file_sizes file_count)
  | _, _, _ => (false, fs)
  end.

Definition end_ (fs : t) : t := mk None None None None 0.

Definition exists_ (fs : t) (path : option string) : bool :=
  match _impl fs with
  | None => false
  | Some impl => Full.exists_ impl path
  end.

Definition open (fs : t) (path : option string) : File :=
  match _impl fs with
  | None => None
  | Some impl => Full.open impl path
  end.

(** [totalBytes()]: the running sum is a [size_t]. *)
Definition totalBytes {T : Target} (fs : t) : Z :=
  match fileSizes_ fs with
  | None => 0
  | Some sizes =>
      fold_left (fun sum s => wrap (sum + s))
                (firstn (Z.to_nat (fileCount_ fs)) sizes) 0
  end.

(** The two states of the life cycle. *)
Definition mounted (fs : t) : bool :=
  match _impl fs with
  | Some _ => true
  | None => false
  end.

(** [usedBytes()] *)
Definition usedBytes {T : Target} (fs : t) : Z := totalBytes fs.

(** The [begin(formatOnFail, basePath, maxOpenFiles, partitionLabel)]
    overload: it mounts nothing and reports whether an index is
    installed. *)
Definition begin_compat (fs : t) : bool * t := (mounted fs, fs).

(** [openEmbedded(path)] of the minimal variant: the first entry of
    the installed arrays whose name is [path]. The three arrays are
    installed and cleared together, so the data and size arrays are
    there whenever the name array is. *)
Definition openEmbedded (fs : t) (path : string) : EmbedFSFile.t :=
  match fileNames_ fs, fileData_ fs, fileSizes_ fs with
  | Some names, Some data, Some sizes =>
      match Minimal.lookup
              (EmbedFSImpl_make names data sizes (fileCount_ fs)) path with
      | Some e => EmbedFSFile.make (e_data e) (e_size e)
      | None => EmbedFSFile.empty_file
      end
  | _, _, _ => EmbedFSFile.empty_file
  end.

(** The states the object is in before any successful [begin] and
    after [end]. *)
Inductive unmounted : t -> Prop :=
| unmounted_init : unmounted init
| unmounted_end (fs : t) : unmounted (end_ fs)
| unmounted_begin_failed (fs : t)
    (file_names : option (list (option string)))
    (file_data : option (list (option (list Byte.byte))))
    (file_sizes : option (list Z)) (file_count : Z) :
    unmounted fs ->
    fst (begin fs file_names file_data file_sizes file_count) = false ->
    unmounted (snd (begin fs file_names file_data file_sizes file_count)).

End EmbedFSFS.

(** ** A client read loop

    [read_chunks f lens] calls [read] once per length in [lens], each
    time into a fresh buffer of that length, and collects what each call
    delivered ([buf[0 .. count)]). *)

Fixpoint read_chunks {T : Target} (f : EmbeddedFileImpl.t) (lens : list Z)
  : list Byte.byte * EmbeddedFileImpl.t :=
  match lens with
  | [] => ([], f)
  | len :: rest =>
      let '(count, buf, f') :=
        EmbeddedFileImpl.read f (repeat Byte.x00 (Z.to_nat len)) len in
      let '(more, f'') := read_chunks f' rest in
      (firstn (Z.to_nat count) buf ++ more, f'')
  end.

(** ** The resolver as the specification words it

    These definitions follow the specification's description of directory
    synthesis; the theorems below compare [Full.open] with them. *)

Module Spec.

(** [s] starts with [pfx]: what follows the prefix. *)
Fixpoint strip_prefix (pfx s : string) : option string :=
  match pfx with
  | EmptyString => Some s
  | String a pfx' =>
      match s with
      | EmptyString => None
      | String b s' =>
          if Ascii.eqb a b then strip_prefix pfx' s' else None
      end
  end.

(** The slash-separated segments of a path. *)
Fixpoint segments (s : string) : list string :=
  match s with
  | EmptyString => [EmptyString]
  | String a t =>
      if Ascii.eqb a slash then EmptyString :: segments t
      else
        match segments t with
        | seg :: rest => String a seg :: rest
        | [] => [String a EmptyString]
        end
  end.

(** The child an entry contributes to the directory with prefix
    [pfx]: the next segment after the prefix, a directory when further
    segments follow. An entry with nothing after the prefix contributes
    no child. *)
Definition occurrence (pfx : string) (e : Entry)
  : option EmbeddedDirImpl.Entry :=
  match e_name e with
  | None => None
  | Some n =>
      match strip_prefix pfx (normalize n) with
      | None => None
      | Some EmptyString => None
      | Some rest =>
          let segs := segments rest in
          Some (EmbeddedDirImpl.mkEntry
                  ("/" ++ pfx ++ hd EmptyString segs)%string
                  (1 <? List.length segs)%nat)
      end
  end.

(** All occurrences, in entry-index order. *)
Fixpoint occurrences (pfx : string) (this : EmbedFSImpl)
  : list EmbeddedDirImpl.Entry :=
  match this with
  | [] => []
  | e :: rest =>
      match occurrence pfx e with
      | Some o => o :: occurrences pfx rest
      | None => occurrences pfx rest
      end
  end.

Definition mem (x : string) (l : list string) : bool :=
  existsb (String.eqb x) l.

(** The names of a list, each once, in first-seen order. *)
Fixpoint first_seen (seen names : list string) : list string :=
  match names with
  | [] => []
  | x :: rest =>
      if mem x seen then first_seen seen rest
      else x :: first_seen (x :: seen) rest
  end.

(** Some occurrence of [name] is a directory. *)
Definition any_dir (name : string) (occ : list EmbeddedDirImpl.Entry)
  : bool :=
  existsb (fun o => String.eqb (EmbeddedDirImpl.path o) name
                    && EmbeddedDirImpl.isDir o) occ.

(** Deduplicated by name, directory status dominating, first-seen
    order. *)
Definition dedup (occ : list EmbeddedDirImpl.Entry)
  : list EmbeddedDirImpl.Entry :=
  map (fun name => EmbeddedDirImpl.mkEntry name (any_dir name occ))
      (first_seen [] (map EmbeddedDirImpl.path occ)).

(** The children of query [q] when every query, the root included, is
    scanned with the prefix [q + "/"]. *)
Definition children_slash (q : string) (this : EmbedFSImpl)
  : list EmbeddedDirImpl.Entry :=
  dedup (occurrences (q ++ "/")%string this).

(** The children of query [q] with the empty prefix at the root. *)
Definition children (q : string) (this : EmbedFSImpl)
  : list EmbeddedDirImpl.Entry :=
  dedup (occurrences (Full.prefix_of q) this).

(** No entry matches the query exactly. *)
Definition no_exact (this : EmbedFSImpl) (q : string) : Prop :=
  forall e n, In e this -> e_name e = Some n -> normalize n <> q.

(** The candidate absolute position of a seek, as an integer. *)
Definition candidate (f : EmbeddedFileImpl.t) (offset : Z)
                     (mode : SeekMode) : Z :=
  match mode with
  | SeekSet => offset
  | SeekCur => EmbeddedFileImpl._pos f + offset
  | SeekEnd => EmbeddedFileImpl._size f + offset
  end.

End Spec.

(** [addUnique] over a list of occurrences. *)
Definition add_all (entries occ : list EmbeddedDirImpl.Entry)
  : list EmbeddedDirImpl.Entry :=
  fold_left
    (fun acc o =>
       Full.addUnique acc (EmbeddedDirImpl.path o) (EmbeddedDirImpl.isDir o))
    occ entries.

Definition names_of (l : list EmbeddedDirImpl.Entry) : list string :=
  map EmbeddedDirImpl.path l.

(** The effect of [addUnique] on an entry that is already there. *)
Definition widen (p : string) (d : bool) (o : EmbeddedDirImpl.Entry)
  : EmbeddedDirImpl.Entry :=
  if String.eqb (EmbeddedDirImpl.path o) p
  then EmbeddedDirImpl.mkEntry (EmbeddedDirImpl.path o)
                               (EmbeddedDirImpl.isDir o || d)
  else o.

(** ** The intermediate variant of the resolver

    It strips the leading slash only, and answers a directory query with
    a file handle that has no data (the "directory marker"). *)

Module Intermediate.

(** First loop of [open] and of [exists]. *)
Fixpoint find_exact (this : EmbedFSImpl) (p : string) : option Entry :=
  match this with
  | [] => None
  | e :: rest =>
      match e_name e with
      | None => find_exact rest p
      | Some n =>
          let nj := strip_leading n in
          if String.eqb nj p then Some e else find_exact rest p
      end
  end.

(** Second loop of [open] and of [exists]. *)
Fixpoint has_prefix (this : EmbedFSImpl) (prefix : string) : bool :=
  match this with
  | [] => false
  | e :: rest =>
      match e_name e with
      | None => has_prefix rest prefix
      | Some n =>
          let fn := strip_leading n in
          if empty prefix
             || ((size prefix <? size fn)%nat
                 && compare_eq fn (size prefix) prefix)
          then true
          else has_prefix rest prefix
      end
  end.

Definition open (this : EmbedFSImpl) (path : option string) : FileImplPtr :=
  match path with
  | None => None
  | Some path =>
      let p := strip_leading path in
      let display := ("/" ++ p)%string in
      match find_exact this p with
      | Some e =>
          Some (FileH (EmbeddedFileImpl.make
                         (Some display) (e_data e) (e_size e)))
      | None =>
          if has_prefix this (Full.prefix_of p)
          then Some (FileH (EmbeddedFileImpl.make (Some display) None 0))
          else None
      end
  end.

Definition exists_ (this : EmbedFSImpl) (path : option string) : bool :=
  match path with
  | None => false
  | Some path =>
      let p := strip_leading path in
      match find_exact this p with
      | Some _ => true
      | None => has_prefix this (Full.prefix_of p)
      end
  end.

End Intermediate.

(** ** The virtual [path()] and [name()] *)

Definition FileImpl_path (h : FileImpl) : option string :=
  match h with
  | FileH f => EmbeddedFileImpl._path f
  | DirH d => EmbeddedDirImpl._path d
  end.

Definition FileImpl_name (h : FileImpl) : option string :=
  match h with
  | FileH f => EmbeddedFileImpl._name f
  | DirH d => EmbeddedDirImpl._name d
  end.

(** ** Client sequences *)

(** A call on a file cursor. *)
Inductive FileOp : Type :=
| OpRead (buf : list Byte.byte) (size : Z)
| OpSeek (pos : Z) (mode : SeekMode)
| OpClose.

Definition apply_op {T : Target} (f : EmbeddedFileImpl.t) (op : FileOp)
  : EmbeddedFileImpl.t :=
  match op with
  | OpRead buf size => snd (EmbeddedFileImpl.read f buf size)
  | OpSeek pos mode => snd (EmbeddedFileImpl.seek f pos mode)
  | OpClose => EmbeddedFileImpl.close f
  end.

(** The arguments have the types the code gives them. *)
Definition op_typed {T : Target} (op : FileOp) : Prop :=
  match op with
  | OpRead _ size => in_size_t size
  | OpSeek pos _ => in_uint32 pos
  | OpClose => True
  end.

(** A client's listing loop,
    [while ((name = dir.getNextFileName(&isDir)) != "") ...],
    with the number of iterations left as fuel. *)
Fixpoint list_names {T : Target} (fuel : nat) (d : EmbeddedDirImpl.t)
  : list EmbeddedDirImpl.Entry * EmbeddedDirImpl.t :=
  match fuel with
  | O => ([], d)
  | S k =>
      match EmbeddedDirImpl.getNextFileName d with
      | (None, d') => ([], d')
      | (Some e, d') =>
          let '(es, d'') := list_names k d' in
          (e :: es, d'')
      end
  end.

(** [k] slashes. *)
Fixpoint slashes (k : nat) : string :=
  match k with
  | O => EmptyString
  | S j => String slash (slashes j)
  end.

(** * Proofs *)

(** Closes [Spec.no_exact this q] on a concrete index and query. *)
Ltac no_exact_by_computation :=
  let e := fresh "e" in
  let n := fresh "n" in
  let Hin := fresh "Hin" in
  let En := fresh "En" in
  intros e n Hin En; cbn in Hin;
  repeat (destruct Hin as [<-|Hin];
          [try discriminate En; inversion En; subst n; vm_compute;
           discriminate|]);
  contradiction.

(** ** Normalization *)

Lemma pop_back_size (s : string) :
  size (pop_back s) = pred (size s).
Proof.
  induction s as [|a t IH]; [reflexivity|].
  destruct t as [|b t']; [reflexivity|].
  change (pop_back (String a (String b t')))
    with (String a (pop_back (String b t'))).
  unfold size in *. cbn [String.length] in *. rewrite IH. reflexivity.
Qed.

Lemma strip_trailing_loop_exit (fuel : nat) (p : string) :
  (size p <= fuel)%nat ->
  ends_with_slash (strip_trailing_loop fuel p) = false.
Proof.
  revert p. induction fuel as [|k IH]; intros p Hsz.
  - destruct p; [reflexivity | cbn in Hsz; lia].
  - cbn [strip_trailing_loop]. fold (ends_with_slash p).
    destruct (ends_with_slash p) eqn:E; [|exact E].
    apply IH. rewrite pop_back_size. lia.
Qed.

(** The fuel is enough: the result satisfies the exit condition of the
    [while] loop. *)
Lemma strip_trailing_exit (p : string) :
  ends_with_slash (strip_trailing p) = false.
Proof. apply strip_trailing_loop_exit. apply Nat.le_refl. Qed.

Lemma strip_trailing_loop_fixed (fuel : nat) (p : string) :
  ends_with_slash p = false -> strip_trailing_loop fuel p = p.
Proof.
  intros E. destruct fuel; [reflexivity|].
  cbn [strip_trailing_loop]. fold (ends_with_slash p). now rewrite E.
Qed.

Lemma strip_trailing_fixed (p : string) :
  ends_with_slash p = false -> strip_trailing p = p.
Proof. apply strip_trailing_loop_fixed. Qed.

Lemma normalize_exit (p : string) : ends_with_slash (normalize p) = false.
Proof. apply strip_trailing_exit. Qed.

Lemma ends_with_slash_erase_front (s : string) :
  ends_with_slash s = false -> ends_with_slash (erase_front s) = false.
Proof.
  destruct s as [|a t]; [reflexivity|].
  destruct t as [|b t']; [reflexivity|].
  intros H. exact H.
Qed.

Lemma erase_front_size (s : string) :
  front_is s slash = true -> size s = S (size (erase_front s)).
Proof. destruct s; [discriminate | reflexivity]. Qed.

Lemma front_is_pop_back (s : string) (c : ascii) :
  front_is s c = false -> front_is (pop_back s) c = false.
Proof.
  destruct s as [|a [|b t]]; intros H; [reflexivity | reflexivity | exact H].
Qed.

Lemma front_is_strip_trailing (s : string) :
  front_is s slash = false -> front_is (strip_trailing s) slash = false.
Proof.
  unfold strip_trailing. generalize (size s) as fuel. intros fuel.
  revert s. induction fuel as [|k IH]; intros s H; [exact H|].
  cbn [strip_trailing_loop].
  destruct (negb (empty s) && back_is s slash); [|exact H].
  apply IH. now apply front_is_pop_back.
Qed.

Lemma front_is_strip_leading (p : string) :
  String.prefix "//" p = false -> front_is (strip_leading p) slash = false.
Proof.
  unfold strip_leading.
  destruct p as [|a t]; [reflexivity|].
  cbn [empty negb andb front_is String.prefix].
  destruct (Ascii.eqb_spec a slash) as [->|Ha].
  - cbn [erase_front]. destruct t as [|b t']; [reflexivity|].
    cbn. destruct (Ascii.eqb_spec b slash) as [->|Hb].
    + cbn. destruct t'; discriminate.
    + reflexivity.
  - intros _. cbn. now apply Ascii.eqb_neq.
Qed.

(** C6 (amended). Normalizing twice equals normalizing once exactly when
    the normalized path does not itself begin with a slash; in particular
    for every path that does not begin with two slashes. The code strips
    a single leading slash, so a path that begins with two or more slashes
    followed by another character loses one more slash on the second
    pass. *)
Theorem normalize_idempotent_iff (p : string) :
  (normalize (normalize p) = normalize p <->
   front_is (normalize p) slash = false)
  /\
  (String.prefix "//" p = false ->
   normalize (normalize p) = normalize p).
Proof.
  assert (Hiff : normalize (normalize p) = normalize p <->
                 front_is (normalize p) slash = false).
  { pose proof (normalize_exit p) as Hexit.
    unfold normalize at 1. unfold strip_leading.
    destruct (front_is (normalize p) slash) eqn:F.
    - replace (negb (empty (normalize p))) with true
        by (destruct (normalize p); [discriminate | reflexivity]).
      cbn [andb]. split; [|discriminate].
      rewrite strip_trailing_fixed
        by (apply ends_with_slash_erase_front; exact Hexit).
      intros Heq. apply erase_front_size in F.
      rewrite <- Heq in F at 1. lia.
    - rewrite andb_false_r. split; [reflexivity|].
      intros _. apply strip_trailing_fixed. exact Hexit. }
  split; [exact Hiff|].
  intros H. apply Hiff. unfold normalize.
  now apply front_is_strip_trailing, front_is_strip_leading.
Qed.

(** C6 (witness). *)
Lemma normalize_idempotent_iff_witness :
  String.prefix "//" "/assets/img//" = false /\
  normalize (normalize "/assets/img//") = normalize "/assets/img//".
Proof.
  split; [reflexivity|].
  apply (proj2 (normalize_idempotent_iff "/assets/img//")). reflexivity.
Defined.

(** C6 (counterexample). ["//a"] normalizes to ["/a"], which normalizes
    to ["a"]. *)
Lemma normalize_not_idempotent :
  ~ (forall p : string, normalize (normalize p) = normalize p).
Proof.
  intros H. specialize (H "//a"). vm_compute in H. discriminate H.
Qed.

(** ** Strings *)

Lemma length_append (a b : string) :
  String.length (a ++ b) = (String.length a + String.length b)%nat.
Proof. induction a as [|c a IH]; cbn; [reflexivity | now rewrite IH]. Qed.

Lemma strip_prefix_app (pfx r : string) :
  Spec.strip_prefix pfx (pfx ++ r) = Some r.
Proof.
  induction pfx as [|a pfx IH]; cbn; [reflexivity|].
  now rewrite Ascii.eqb_refl.
Qed.

Lemma strip_prefix_Some (pfx s r : string) :
  Spec.strip_prefix pfx s = Some r -> s = (pfx ++ r)%string.
Proof.
  revert s. induction pfx as [|a pfx IH]; intros s H; cbn in *.
  - now inversion H.
  - destruct s as [|b s]; [discriminate|].
    destruct (Ascii.eqb_spec a b) as [->|]; [|discriminate].
    f_equal. now apply IH.
Qed.

Lemma substring_prefix_app (pfx r : string) :
  substring 0 (String.length pfx) (pfx ++ r) = pfx.
Proof. induction pfx as [|a pfx IH]; cbn; [now destruct r | now rewrite IH]. Qed.

Lemma substring_skip_app (pfx r : string) (n : nat) :
  substring (String.length pfx) n (pfx ++ r) = substring 0 n r.
Proof. induction pfx as [|a pfx IH]; cbn; [reflexivity | exact IH]. Qed.

Lemma substring_all (r : string) : substring 0 (String.length r) r = r.
Proof. induction r as [|a r IH]; cbn; [reflexivity | now rewrite IH]. Qed.

Lemma substring_prefix_inv (pfx s : string) :
  substring 0 (String.length pfx) s = pfx ->
  exists r, s = (pfx ++ r)%string.
Proof.
  revert s. induction pfx as [|a pfx IH]; intros s H.
  - now exists s.
  - destruct s as [|b s]; [discriminate|]. cbn in H.
    inversion H as [[Hb Hs]]. rewrite Hs.
    destruct (IH s Hs) as [r ->]. now exists r.
Qed.

Lemma ends_with_slash_app (p : string) :
  ends_with_slash (p ++ "/") = true.
Proof.
  unfold ends_with_slash.
  induction p as [|a p IH]; [reflexivity|].
  destruct p as [|b p]; [reflexivity|].
  exact IH.
Qed.

Lemma segments_not_nil (s : string) : Spec.segments s <> [].
Proof.
  induction s as [|a s IH]; cbn; [discriminate|].
  destruct (Ascii.eqb a slash); [discriminate|].
  destruct (Spec.segments s); [contradiction | discriminate].
Qed.

(** [find] and [substr] pick the first segment, and there is a slash
    exactly when further segments follow. *)
Lemma child_of_segments (r : string) :
  Full.child_of r =
  (hd EmptyString (Spec.segments r),
   (1 <? List.length (Spec.segments r))%nat).
Proof.
  unfold Full.child_of, substr.
  induction r as [|a r IH]; [reflexivity|].
  cbn [find Spec.segments].
  destruct (Ascii.eqb a slash) eqn:E.
  - cbn. pose proof (segments_not_nil r).
    destruct (Spec.segments r); [contradiction | reflexivity].
  - pose proof (segments_not_nil r) as Hne.
    destruct (Spec.segments r) as [|seg rest]; [contradiction|].
    destruct (find r slash) as [k|]; cbn in IH |- *.
    + injection IH as Hseg Hrest. now rewrite Hseg, <- Hrest.
    + injection IH as Hseg Hrest. now rewrite Hseg, <- Hrest.
Qed.

(** ** The scan of [open] against the specification's words *)

Lemma scan_step_occurrence (p : string)
      (entries : list EmbeddedDirImpl.Entry) (e : Entry) :
  Full.scan_step p (Full.prefix_of p) entries e =
  match Spec.occurrence (Full.prefix_of p) e with
  | Some o =>
      Full.addUnique entries (EmbeddedDirImpl.path o) (EmbeddedDirImpl.isDir o)
  | None => entries
  end.
Proof.
  unfold Full.scan_step, Spec.occurrence.
  destruct (e_name e) as [n|]; [|reflexivity].
  pose proof (normalize_exit n) as Hexit.
  set (fn := normalize n) in *.
  destruct p as [|a p].
  - (* the root: empty prefix *)
    cbn [empty Full.prefix_of Spec.strip_prefix].
    destruct fn as [|b fn]; [reflexivity|].
    cbn [empty]. rewrite child_of_segments. reflexivity.
  - cbn [empty Full.prefix_of].
    set (q := String a p). set (pfx := (q ++ "/")%string).
    destruct (Spec.strip_prefix pfx fn) as [r|] eqn:Hsp.
    + apply strip_prefix_Some in Hsp.
      destruct r as [|b r].
      { exfalso. rewrite Hsp in Hexit.
        replace (pfx ++ "")%string with pfx in Hexit
          by (clear; induction pfx; cbn; congruence).
        unfold pfx in Hexit. rewrite ends_with_slash_app in Hexit.
        discriminate. }
      unfold compare_eq, substr_from, size.
      rewrite Hsp, length_append, substring_prefix_app, String.eqb_refl.
      replace (String.length pfx + String.length (String b r)
               <=? String.length pfx)%nat with false
        by (symmetry; apply Nat.leb_gt; cbn; lia).
      cbn [negb orb].
      replace (String.length pfx + String.length (String b r)
               - String.length pfx)%nat
        with (String.length (String b r)) by lia.
      rewrite substring_skip_app, substring_all.
      cbn [empty]. rewrite child_of_segments.
      cbn [EmbeddedDirImpl.path EmbeddedDirImpl.isDir].
      unfold pfx. reflexivity.
    + destruct (size fn <=? size pfx)%nat; [reflexivity|].
      unfold compare_eq.
      destruct (String.eqb_spec (substring 0 (size pfx) fn) pfx)
        as [Heq|]; [|reflexivity].
      apply substring_prefix_inv in Heq. destruct Heq as [r Hr].
      rewrite Hr, strip_prefix_app in Hsp. discriminate.
Qed.

Lemma scan_occurrences (this : EmbedFSImpl) (p : string)
      (entries : list EmbeddedDirImpl.Entry) :
  Full.scan this p (Full.prefix_of p) entries =
  add_all entries (Spec.occurrences (Full.prefix_of p) this).
Proof.
  revert entries. induction this as [|e rest IH]; intros entries.
  - reflexivity.
  - cbn [Full.scan Spec.occurrences].
    rewrite IH, scan_step_occurrence.
    destruct (Spec.occurrence (Full.prefix_of p) e); reflexivity.
Qed.

(** ** [addUnique] deduplicates, widens and keeps first-seen order *)

Lemma mem_true_iff (x : string) (l : list string) :
  Spec.mem x l = true <-> In x l.
Proof.
  unfold Spec.mem. rewrite existsb_exists. split.
  - intros [y [Hy E]]. apply String.eqb_eq in E. now subst.
  - intros H. exists x. split; [exact H | apply String.eqb_refl].
Qed.

Lemma mem_false_iff (x : string) (l : list string) :
  Spec.mem x l = false <-> ~ In x l.
Proof.
  rewrite <- mem_true_iff. destruct (Spec.mem x l); split; congruence.
Qed.

Lemma widen_other (p : string) (d : bool) (l : list EmbeddedDirImpl.Entry) :
  ~ In p (names_of l) -> map (widen p d) l = l.
Proof.
  induction l as [|o l IH]; intros Hn; [reflexivity|].
  cbn in *. rewrite IH by tauto. f_equal. unfold widen.
  destruct (String.eqb_spec (EmbeddedDirImpl.path o) p); [tauto | reflexivity].
Qed.

Lemma addUnique_present (acc : list EmbeddedDirImpl.Entry)
      (p : string) (d : bool) :
  NoDup (names_of acc) -> In p (names_of acc) ->
  Full.addUnique acc p d = map (widen p d) acc.
Proof.
  induction acc as [|o acc IH]; intros Hnd Hin; [contradiction|].
  cbn [Full.addUnique map]. unfold widen at 1.
  cbn in Hnd, Hin. apply NoDup_cons_iff in Hnd. destruct Hnd as [Hno Hnd].
  destruct (String.eqb_spec (EmbeddedDirImpl.path o) p) as [E|E].
  - subst p. rewrite widen_other by exact Hno. f_equal.
    destruct o as [op [|]], d; reflexivity.
  - f_equal. apply IH; [exact Hnd | tauto].
Qed.

Lemma addUnique_absent (acc : list EmbeddedDirImpl.Entry)
      (p : string) (d : bool) :
  ~ In p (names_of acc) ->
  Full.addUnique acc p d = acc ++ [EmbeddedDirImpl.mkEntry p d].
Proof.
  induction acc as [|o acc IH]; intros Hn; [reflexivity|].
  cbn in *.
  destruct (String.eqb_spec (EmbeddedDirImpl.path o) p); [tauto|].
  f_equal. apply IH. tauto.
Qed.

Lemma names_of_widen (p : string) (d : bool)
      (l : list EmbeddedDirImpl.Entry) :
  names_of (map (widen p d) l) = names_of l.
Proof.
  unfold names_of. rewrite map_map. apply map_ext.
  intros o. unfold widen.
  destruct (String.eqb (EmbeddedDirImpl.path o) p); reflexivity.
Qed.

Lemma NoDup_snoc (l : list string) (x : string) :
  NoDup l -> ~ In x l -> NoDup (l ++ [x]).
Proof.
  induction l as [|y l IH]; intros Hnd Hn; cbn.
  - constructor; [intros [] | constructor].
  - apply NoDup_cons_iff in Hnd. destruct Hnd as [Hy Hnd].
    constructor.
    + rewrite in_app_iff. cbn in *. intuition congruence.
    + apply IH; [exact Hnd | cbn in Hn; tauto].
Qed.

Lemma first_seen_ext (s1 s2 names : list string) :
  (forall x, In x s1 <-> In x s2) ->
  Spec.first_seen s1 names = Spec.first_seen s2 names.
Proof.
  revert s1 s2. induction names as [|x names IH]; intros s1 s2 H.
  - reflexivity.
  - cbn. assert (Spec.mem x s1 = Spec.mem x s2) as ->.
    { destruct (Spec.mem x s2) eqn:E.
      - apply mem_true_iff, H, mem_true_iff, E.
      - apply mem_false_iff. rewrite H. apply mem_false_iff, E. }
    destruct (Spec.mem x s2); [now apply IH|].
    f_equal. apply IH. intros y. cbn. now rewrite H.
Qed.

Lemma first_seen_fresh (seen names : list string) (x : string) :
  In x (Spec.first_seen seen names) -> ~ In x seen.
Proof.
  revert seen. induction names as [|y names IH]; intros seen H.
  - contradiction.
  - cbn in H. destruct (Spec.mem y seen) eqn:E; [now apply IH|].
    destruct H as [->|H].
    + now apply mem_false_iff.
    + intros Hs. apply (IH _ H). now right.
Qed.

Lemma any_dir_cons_other (n : string) (o : EmbeddedDirImpl.Entry)
      (occ : list EmbeddedDirImpl.Entry) :
  EmbeddedDirImpl.path o <> n ->
  Spec.any_dir n (o :: occ) = Spec.any_dir n occ.
Proof.
  intros H. unfold Spec.any_dir. cbn.
  now destruct (String.eqb_spec (EmbeddedDirImpl.path o) n).
Qed.

(** The invariant of the scan: what is already in the vector is widened
    by what is still to come, and what is to come is appended where it is
    first seen. *)
Lemma add_all_invariant (occ acc : list EmbeddedDirImpl.Entry) :
  NoDup (names_of acc) ->
  add_all acc occ =
  map (fun o => EmbeddedDirImpl.mkEntry
                  (EmbeddedDirImpl.path o)
                  (EmbeddedDirImpl.isDir o
                   || Spec.any_dir (EmbeddedDirImpl.path o) occ)) acc
  ++ map (fun n => EmbeddedDirImpl.mkEntry n (Spec.any_dir n occ))
         (Spec.first_seen (names_of acc) (names_of occ)).
Proof.
  revert acc. induction occ as [|o0 occ IH]; intros acc Hnd.
  - cbn. rewrite app_nil_r. symmetry.
    erewrite map_ext; [apply map_id|].
    intros [p d]. cbn. now rewrite orb_false_r.
  - cbn [add_all fold_left]. fold (add_all
      (Full.addUnique acc (EmbeddedDirImpl.path o0) (EmbeddedDirImpl.isDir o0))
      occ).
    set (p0 := EmbeddedDirImpl.path o0). set (d0 := EmbeddedDirImpl.isDir o0).
    cbn [names_of map Spec.first_seen]. fold (names_of occ). fold p0.
    destruct (Spec.mem p0 (names_of acc)) eqn:Hmem.
    + apply mem_true_iff in Hmem.
      rewrite addUnique_present by assumption.
      rewrite IH by (now rewrite names_of_widen).
      rewrite names_of_widen, map_map. f_equal.
      * apply map_ext. intros o. unfold widen.
        destruct (String.eqb_spec (EmbeddedDirImpl.path o) p0) as [E|E].
        -- cbn [EmbeddedDirImpl.path EmbeddedDirImpl.isDir].
           f_equal. unfold Spec.any_dir at 2. cbn [existsb]. fold p0 d0.
           rewrite E, String.eqb_refl. cbn [andb].
           fold (Spec.any_dir p0 occ). now rewrite orb_assoc.
        -- rewrite any_dir_cons_other; [reflexivity|].
           fold p0. congruence.
      * apply map_ext_in. intros n Hn. f_equal.
        rewrite any_dir_cons_other; [reflexivity|].
        fold p0. intros ->. exact (first_seen_fresh _ _ _ Hn Hmem).
    + apply mem_false_iff in Hmem.
      rewrite addUnique_absent by assumption.
      assert (names_of (acc ++ [EmbeddedDirImpl.mkEntry p0 d0])
              = names_of acc ++ [p0]) as Hnames
          by (unfold names_of; now rewrite map_app).
      rewrite IH by (rewrite Hnames; now apply NoDup_snoc).
      rewrite Hnames, map_app, <- app_assoc. f_equal.
      * apply map_ext_in. intros o Ho. f_equal. f_equal.
        rewrite any_dir_cons_other; [reflexivity|].
        intros E. apply Hmem. unfold p0. rewrite E.
        unfold names_of. now apply in_map.
      * cbn [map app]. f_equal.
        -- cbn [EmbeddedDirImpl.path EmbeddedDirImpl.isDir]. f_equal.
           unfold Spec.any_dir at 2. cbn [existsb]. fold p0 d0.
           now rewrite String.eqb_refl.
        -- rewrite (first_seen_ext (names_of acc ++ [p0]) (p0 :: names_of acc))
             by (intros x; rewrite in_app_iff; cbn; tauto).
           apply map_ext_in. intros n Hn. f_equal.
           rewrite any_dir_cons_other; [reflexivity|].
           fold p0. intros ->.
           apply (first_seen_fresh _ _ _ Hn). now left.
Qed.

(** The second loop of [open] computes the specification's children. *)
Lemma scan_children (this : EmbedFSImpl) (p : string) :
  Full.scan this p (Full.prefix_of p) [] = Spec.children p this.
Proof.
  rewrite scan_occurrences, add_all_invariant by constructor.
  reflexivity.
Qed.

Lemma first_seen_NoDup (seen names : list string) :
  NoDup (Spec.first_seen seen names).
Proof.
  revert seen. induction names as [|x names IH]; intros seen; cbn.
  - constructor.
  - destruct (Spec.mem x seen); [apply IH|].
    constructor; [|apply IH].
    intros H. apply first_seen_fresh in H. apply H. now left.
Qed.

Lemma dedup_NoDup (occ : list EmbeddedDirImpl.Entry) :
  NoDup (names_of (Spec.dedup occ)).
Proof.
  unfold names_of, Spec.dedup. rewrite map_map. cbn.
  rewrite map_id. apply first_seen_NoDup.
Qed.

(** ** The resolver *)

Lemma find_exact_none (this : EmbedFSImpl) (q : string) :
  Full.find_exact this q = None <-> Spec.no_exact this q.
Proof.
  unfold Spec.no_exact. induction this as [|e rest IH]; cbn.
  - split; [intros _ e n [] | reflexivity].
  - destruct (e_name e) as [n|] eqn:En.
    + destruct (String.eqb_spec (normalize n) q) as [E|E].
      * split; [discriminate|]. intros H. exfalso.
        exact (H e n (or_introl eq_refl) En E).
      * rewrite IH. split.
        -- intros H e' n' [<-|Hin] En'; [congruence | eauto].
        -- intros H e' n' Hin. apply H. now right.
    + rewrite IH. split.
      * intros H e' n' [<-|Hin] En'; [congruence | eauto].
      * intros H e' n' Hin. apply H. now right.
Qed.


(** What [open] returns once the first loop has found nothing. *)
Lemma open_no_exact (this : EmbedFSImpl) (path : string) :
  Spec.no_exact this (normalize path) ->
  Full.open this (Some path) =
  if negb (Full.is_nil (Spec.children (normalize path) this))
     || empty (normalize path)
  then Some (DirH (EmbeddedDirImpl.make
                     (Some (display_of (normalize path))) (Some this)
                     (Spec.children (normalize path) this)))
  else None.
Proof.
  intros H. apply find_exact_none in H.
  unfold Full.open. rewrite H, scan_children. reflexivity.
Qed.

Lemma children_slash_eq (q : string) (this : EmbedFSImpl) :
  q <> EmptyString -> Spec.children q this = Spec.children_slash q this.
Proof.
  intros H. unfold Spec.children, Spec.children_slash, Full.prefix_of.
  destruct q; [contradiction | reflexivity].
Qed.

(** C1 (amended). When no entry matches the query exactly, [open]
    returns a directory handle exactly when the query is the root or at
    least one child was found, and an empty pointer otherwise. The
    handle's child list is the specification's: the next segment after
    the prefix of every entry under it, marked a directory when further
    segments follow, deduplicated by name with the directory flag
    widened, in first-seen entry order. The prefix is the query followed
    by a slash, except at the root, where it is empty. *)
Theorem open_directory_children (this : EmbedFSImpl) (path : string) :
  Spec.no_exact this (normalize path) ->
  let q := normalize path in
  let kids := Spec.children q this in
  (kids <> [] \/ q = EmptyString ->
   Full.open this (Some path) =
   Some (DirH (EmbeddedDirImpl.make (Some (display_of q)) (Some this) kids)))
  /\ (kids = [] /\ q <> EmptyString -> Full.open this (Some path) = None)
  /\ (q <> EmptyString -> kids = Spec.children_slash q this)
  /\ NoDup (names_of kids).
Proof.
  intros H q kids. rewrite (open_no_exact _ _ H). fold q kids.
  repeat split.
  - intros [Hk|Hq].
    + destruct kids; [contradiction | reflexivity].
    + rewrite Hq. cbn [empty]. now rewrite orb_true_r.
  - intros [Hk Hq]. rewrite Hk. destruct q; [contradiction | reflexivity].
  - apply children_slash_eq.
  - apply dedup_NoDup.
Qed.

(** C1 (witness, the specification's example): with the single entry
    [/a/b/c.txt], [open("/a")] is a directory whose only child is
    [/a/b], marked as a directory. *)
Lemma open_directory_children_witness :
  let this := [mkEntry (Some "/a/b/c.txt") (Some []) 0] in
  Spec.no_exact this (normalize "/a") /\
  Full.open this (Some "/a") =
  Some (DirH (EmbeddedDirImpl.mk (Some "/a") (Some "a") (Some this)
                [EmbeddedDirImpl.mkEntry "/a/b" true] 0)).
Proof.
  intros this.
  assert (Hno : Spec.no_exact this (normalize "/a")).
  { no_exact_by_computation. }
  split; [exact Hno|].
  destruct (open_directory_children this "/a" Hno) as [Hdir _].
  rewrite Hdir; [reflexivity|].
  left. vm_compute. discriminate.
Defined.

(** C1 (counterexample). With the single entry [/a.txt]: the query
    [/missing] matches no entry exactly and [open] returns no handle at
    all; and [open("/")] lists [/a.txt], which a scan for the prefix
    ["/"] does not find. *)
Lemma open_directory_counterexample :
  let this := [mkEntry (Some "/a.txt") (Some []) 0] in
  Spec.no_exact this (normalize "/missing") /\
  Full.open this (Some "/missing") = None /\
  Spec.no_exact this (normalize "/") /\
  Full.open this (Some "/") =
    Some (DirH (EmbeddedDirImpl.mk (Some "/") (Some "/") (Some this)
                  [EmbeddedDirImpl.mkEntry "/a.txt" false] 0)) /\
  Spec.children_slash (normalize "/") this = [].
Proof.
  intros this. repeat split; no_exact_by_computation.
Qed.



Example open_first_match_wins :
  let d1 := Some [Byte.x01] in
  let d2 := Some [Byte.x02; Byte.x03] in
  Full.open [mkEntry (Some "/a/b") d1 1; mkEntry None None 0;
             mkEntry (Some "a/") d2 2; mkEntry (Some "/a") d1 1]
            (Some "/a") =
  Some (FileH (EmbeddedFileImpl.mk (Some "/a") (Some "a") d2 2 0)).
Proof. reflexivity. Qed.

(** [open] never returns the empty pointer for a path that normalizes to
    the root. *)
Lemma open_root_some (this : EmbedFSImpl) (path : string) :
  normalize path = EmptyString -> Full.open this (Some path) <> None.
Proof.
  intros Hq. unfold Full.open. rewrite Hq.
  destruct (Full.find_exact this ""); [discriminate|].
  cbn [empty]. rewrite orb_true_r. discriminate.
Qed.

(** C3 (amended). While mounted, [exists("/")] is true and [open("/")]
    never returns the empty pointer. When no entry name normalizes to
    the empty path, [open("/")] is a valid directory handle, positioned
    at its first child, whose children are the top-level children (none
    when no entry contributes one). *)
Theorem root_always_exists (fs : EmbedFSFS.t) (impl : EmbedFSImpl) :
  EmbedFSFS._impl fs = Some impl ->
  EmbedFSFS.exists_ fs (Some "/") = true /\
  EmbedFSFS.open fs (Some "/") <> None /\
  (Spec.no_exact impl EmptyString ->
   EmbedFSFS.open fs (Some "/") =
   Some (DirH (EmbeddedDirImpl.mk (Some "/") (Some "/") (Some impl)
                 (Spec.children EmptyString impl) 0)) /\
   File_valid (EmbedFSFS.open fs (Some "/")) = true).
Proof.
  intros Himpl. unfold EmbedFSFS.exists_, EmbedFSFS.open. rewrite Himpl.
  split; [reflexivity|]. split; [now apply open_root_some|].
  intros Hno.
  assert (Full.open impl (Some "/") =
          Some (DirH (EmbeddedDirImpl.mk (Some "/") (Some "/") (Some impl)
                        (Spec.children EmptyString impl) 0))) as ->.
  { rewrite (open_no_exact impl "/" Hno).
    change (normalize "/") with EmptyString.
    cbn [empty]. now rewrite orb_true_r. }
  split; reflexivity.
Qed.

(** C3 (witness): an index whose single name is null has no children. *)
Lemma root_always_exists_witness :
  let impl := [mkEntry None None 0] in
  let fs := snd (EmbedFSFS.begin EmbedFSFS.init
                   (Some [None]) (Some [None]) (Some [0]) 1) in
  EmbedFSFS._impl fs = Some impl /\
  EmbedFSFS.exists_ fs (Some "/") = true /\
  EmbedFSFS.open fs (Some "/") =
  Some (DirH (EmbeddedDirImpl.mk (Some "/") (Some "/") (Some impl) [] 0)).
Proof.
  intros impl fs.
  assert (Himpl : EmbedFSFS._impl fs = Some impl) by reflexivity.
  destruct (root_always_exists fs impl Himpl) as (Hex & _ & Hdir).
  split; [exact Himpl|]. split; [exact Hex|].
  destruct Hdir as [Hopen _].
  - no_exact_by_computation.
  - exact Hopen.
Defined.

(** C3 (counterexample). With an entry named ["/"], mounted by a
    successful [begin], [open("/")] is a file handle on that entry, not
    a directory handle. *)
Lemma root_open_counterexample :
  let r := EmbedFSFS.begin EmbedFSFS.init
             (Some [Some "/"]) (Some [Some [Byte.x2a]]) (Some [1]) 1 in
  fst r = true /\
  EmbedFSFS.open (snd r) (Some "/") =
  Some (FileH (EmbeddedFileImpl.mk (Some "/") (Some "/")
                 (Some [Byte.x2a]) 1 0)) /\
  option_map FileImpl_isDirectory (EmbedFSFS.open (snd r) (Some "/"))
  = Some false.
Proof. repeat split. Qed.

(** ** The two variants of [exists] *)

Lemma minimal_exists_In (this : EmbedFSImpl) (path : string) :
  Minimal.exists_ this path = true ->
  exists e, In e this /\ e_name e = Some path.
Proof.
  induction this as [|e rest IH]; cbn; [discriminate|].
  destruct (e_name e) as [n|] eqn:En.
  - destruct (String.eqb_spec n path) as [->|].
    + intros _. exists e. split; [now left | exact En].
    + intros H. destruct (IH H) as (e' & Hin & He'). exists e'. auto.
  - intros H. destruct (IH H) as (e' & Hin & He'). exists e'. auto.
Qed.

(** C10 (amended). The full variant of [exists] returns true whenever
    the minimal variant does. *)
Theorem minimal_exists_implies_full (this : EmbedFSImpl) (path : string) :
  Minimal.exists_ this path = true ->
  Full.exists_ this (Some path) = true.
Proof.
  intros H. destruct (minimal_exists_In _ _ H) as (e & Hin & En).
  unfold Full.exists_.
  destruct (empty (normalize path)); [reflexivity|].
  destruct (Full.find_exact this (normalize path)) eqn:Hf; [reflexivity|].
  apply find_exact_none in Hf. exfalso. exact (Hf e path Hin En eq_refl).
Qed.

(** C10 (witness). *)
Lemma minimal_exists_implies_full_witness :
  let this := [mkEntry (Some "/hello.txt") (Some []) 0] in
  Minimal.exists_ this "/hello.txt" = true /\
  Full.exists_ this (Some "/hello.txt") = true.
Proof.
  intros this. split; [reflexivity|].
  apply (minimal_exists_implies_full this "/hello.txt"). reflexivity.
Defined.

(** C10 (counterexample). With the single entry [/a/b.txt], the query
    [/a] exists for the full variant (a synthesized directory) and not
    for the minimal one. *)
Lemma exists_variants_differ :
  let this := [mkEntry (Some "/a/b.txt") (Some []) 0] in
  Minimal.exists_ this "/a" = false /\
  Full.exists_ this (Some "/a") = true.
Proof. split; reflexivity. Qed.

(** ** The file cursor *)

Lemma wrap_small {T : Target} (z : Z) : 0 <= z < SIZE_MOD -> wrap z = z.
Proof. intros H. unfold wrap. now apply Z.mod_small. Qed.

Lemma wrap_once {T : Target} (z : Z) :
  SIZE_MOD <= z < 2 * SIZE_MOD -> wrap z = z - SIZE_MOD.
Proof.
  intros H. unfold wrap. symmetry.
  apply Z.mod_unique with (q := 1); lia.
Qed.

(** A [uint32_t] fits a [size_t]. *)
Lemma UINT32_MOD_le {T : Target} : UINT32_MOD <= SIZE_MOD.
Proof.
  unfold UINT32_MOD, SIZE_MOD.
  apply Z.pow_le_mono_r; [lia | apply SIZE_BITS_ge_32].
Qed.

Lemma UINT32_MOD_value : UINT32_MOD = 4294967296.
Proof. reflexivity. Qed.

Lemma SIZE_MOD_ILP32 : @SIZE_MOD ILP32 = 4294967296.
Proof. reflexivity. Qed.

(** C4 (amended). [seek] computes the candidate position in [size_t]
    arithmetic, from an offset that is a [uint32_t]. A candidate below
    [2^SIZE_BITS] is treated as specified: outside [0, N] the call returns
    false and leaves the handle unchanged, otherwise it commits the
    candidate and returns true. A candidate [c >= 2^SIZE_BITS] wraps
    around and is treated as [c - 2^SIZE_BITS] (with a 32-bit [size_t],
    the offset [2^32 - k] moves the position back by [k]). *)
Theorem seek_candidate {T : Target} (f : EmbeddedFileImpl.t) (offset : Z)
        (mode : SeekMode) :
  0 <= EmbeddedFileImpl._pos f <= EmbeddedFileImpl._size f ->
  EmbeddedFileImpl._size f < SIZE_MOD ->
  in_uint32 offset ->
  let N := EmbeddedFileImpl._size f in
  let c := Spec.candidate f offset mode in
  (c < SIZE_MOD ->
   (~ 0 <= c <= N -> EmbeddedFileImpl.seek f offset mode = (false, f)) /\
   (0 <= c <= N ->
    EmbeddedFileImpl.seek f offset mode
    = (true, EmbeddedFileImpl.set_pos f c)))
  /\
  (SIZE_MOD <= c ->
   (N < c - SIZE_MOD -> EmbeddedFileImpl.seek f offset mode = (false, f)) /\
   (c - SIZE_MOD <= N ->
    EmbeddedFileImpl.seek f offset mode
    = (true, EmbeddedFileImpl.set_pos f (c - SIZE_MOD)))).
Proof.
  intros HP HN Hoff N c. unfold in_uint32 in Hoff.
  pose proof UINT32_MOD_le as Hle.
  assert (Hseek : EmbeddedFileImpl.seek f offset mode =
                  if N <? wrap c then (false, f)
                  else (true, EmbeddedFileImpl.set_pos f (wrap c))).
  { unfold EmbeddedFileImpl.seek, c, Spec.candidate, N.
    destruct mode; reflexivity. }
  assert (Hc : 0 <= c < 2 * SIZE_MOD).
  { unfold c, Spec.candidate. destruct mode; lia. }
  rewrite Hseek. split; intros Hrange.
  - rewrite wrap_small by lia. split; intros H.
    + destruct (Z.ltb_spec N c); [reflexivity | lia].
    + destruct (Z.ltb_spec N c); [lia | reflexivity].
  - rewrite wrap_once by lia. split; intros H.
    + destruct (Z.ltb_spec N (c - SIZE_MOD)); [reflexivity | lia].
    + destruct (Z.ltb_spec N (c - SIZE_MOD)); [lia | reflexivity].
Qed.

(** C4 (witness): in a ten-byte file at position 5, seeking to the end
    succeeds and seeking six bytes on fails. *)
Lemma seek_candidate_witness :
  let f := EmbeddedFileImpl.mk (Some "/f") (Some "f") (Some []) 10 5 in
  EmbeddedFileImpl.seek (T := ILP32) f 0 SeekEnd
  = (true, EmbeddedFileImpl.set_pos f 10) /\
  EmbeddedFileImpl.seek (T := ILP32) f 6 SeekCur = (false, f).
Proof.
  intros f.
  assert (HP : 0 <= EmbeddedFileImpl._pos f <= EmbeddedFileImpl._size f)
    by (cbn; lia).
  assert (HN : EmbeddedFileImpl._size f < @SIZE_MOD ILP32) by reflexivity.
  assert (H0 : in_uint32 0) by (unfold in_uint32; rewrite UINT32_MOD_value; lia).
  assert (H6 : in_uint32 6) by (unfold in_uint32; rewrite UINT32_MOD_value; lia).
  split.
  - destruct (seek_candidate (T := ILP32) f 0 SeekEnd HP HN H0) as [Hlow _].
    destruct Hlow as [_ Hin]; [reflexivity|]. apply Hin. cbn. lia.
  - destruct (seek_candidate (T := ILP32) f 6 SeekCur HP HN H6) as [Hlow _].
    destruct Hlow as [Hout _]; [reflexivity|]. apply Hout. cbn. lia.
Defined.

(** C4 (counterexample). With a 32-bit [size_t], in a ten-byte file at
    position 5, [seek(4294967295, SeekCur)] has the candidate
    [5 + 4294967295], far beyond the size, and yet succeeds and moves
    the position to 4. With a 64-bit [size_t] the same happens at the
    end of a file of [2^64 - 1] bytes: [seek(1, SeekCur)] has the
    candidate [2^64] and moves the position to 0. *)
Lemma seek_wraps_counterexample :
  (let f := EmbeddedFileImpl.mk (Some "/f") (Some "f") (Some []) 10 5 in
   Spec.candidate f 4294967295 SeekCur = 4294967300 /\
   EmbeddedFileImpl.seek (T := ILP32) f 4294967295 SeekCur
   = (true, EmbeddedFileImpl.set_pos f 4))
  /\
  (let N := 18446744073709551615 in
   let f := EmbeddedFileImpl.mk (Some "/f") (Some "f") (Some []) N N in
   Spec.candidate f 1 SeekCur = N + 1 /\
   EmbeddedFileImpl.seek (T := LP64) f 1 SeekCur
   = (true, EmbeddedFileImpl.set_pos f 0)).
Proof. repeat split. Qed.

Lemma store_length (buf : list Byte.byte) (i : nat) (b : Byte.byte) :
  List.length (store buf i b) = List.length buf.
Proof.
  revert i. induction buf as [|a buf IH]; intros [|i]; cbn; auto.
Qed.

Lemma firstn_store (buf : list Byte.byte) (i : nat) (b : Byte.byte) :
  (i < List.length buf)%nat ->
  firstn (S i) (store buf i b) = firstn i buf ++ [b].
Proof.
  revert i. induction buf as [|a buf IH]; intros [|i] H; cbn in *;
    try lia; [reflexivity|].
  f_equal. apply IH. lia.
Qed.

Lemma skipn_store (buf : list Byte.byte) (i j : nat) (b : Byte.byte) :
  (i < j)%nat -> skipn j (store buf i b) = skipn j buf.
Proof.
  revert i j. induction buf as [|a buf IH]; intros [|i] [|j] H; cbn;
    try lia; try reflexivity.
  apply IH. lia.
Qed.

(** The copy loop overwrites [buf[from .. from + n)] and nothing else. *)
Lemma copy_loop_spec (n from : nat) (data : list Byte.byte) (pos : nat)
      (buf : list Byte.byte) :
  (from + n <= List.length buf)%nat ->
  copy_loop n from data pos buf =
  firstn from buf
  ++ map (fun i => nth (pos + i) data Byte.x00) (seq from n)
  ++ skipn (from + n) buf.
Proof.
  revert from buf. induction n as [|k IH]; intros from buf Hlen.
  - cbn. rewrite Nat.add_0_r. symmetry. apply firstn_skipn.
  - cbn [copy_loop seq map].
    rewrite IH by (rewrite store_length; lia).
    rewrite firstn_store by lia.
    rewrite skipn_store by lia.
    rewrite <- app_assoc. cbn [app].
    now replace (S from + k)%nat with (from + S k)%nat by lia.
Qed.

Lemma map_nth_seq (data : list Byte.byte) (pos n : nat) :
  (pos + n <= List.length data)%nat ->
  map (fun i => nth (pos + i) data Byte.x00) (seq 0 n)
  = firstn n (skipn pos data).
Proof.
  intros H. apply nth_ext with (d := Byte.x00) (d' := Byte.x00).
  - rewrite length_map, length_seq, length_firstn, length_skipn. lia.
  - intros i Hi. rewrite length_map, length_seq in Hi.
    rewrite nth_firstn, nth_skipn.
    destruct (Nat.ltb_spec i n); [|lia].
    pose proof (map_nth (fun i => nth (pos + i) data Byte.x00)
                        (seq 0 n) 0%nat i) as Hm.
    cbn beta in Hm.
    rewrite (nth_indep _ Byte.x00 (nth (pos + 0) data Byte.x00))
      by (rewrite length_map, length_seq; lia).
    rewrite Hm, seq_nth by lia. reflexivity.
Qed.

Lemma firstn_add_skipn (A : Type) (a b : nat) (l : list A) :
  firstn a l ++ firstn b (skipn a l) = firstn (a + b) l.
Proof.
  revert l. induction a as [|a IH]; intros [|x l]; cbn; auto.
  - now rewrite firstn_nil.
  - f_equal. apply IH.
Qed.

Lemma set_pos_same (f : EmbeddedFileImpl.t) :
  EmbeddedFileImpl.set_pos f (EmbeddedFileImpl._pos f) = f.
Proof. now destruct f. Qed.

(** One [read] on a handle bound to a backing range of [_size] bytes. *)
Lemma read_step {T : Target} (f : EmbeddedFileImpl.t)
      (d buf : list Byte.byte) (maxLen : Z) :
  EmbeddedFileImpl._data f = Some d ->
  Z.of_nat (List.length d) = EmbeddedFileImpl._size f ->
  EmbeddedFileImpl._size f < SIZE_MOD ->
  0 <= EmbeddedFileImpl._pos f < EmbeddedFileImpl._size f ->
  0 <= maxLen < SIZE_MOD ->
  maxLen <= Z.of_nat (List.length buf) ->
  let P := EmbeddedFileImpl._pos f in
  let n := Z.min maxLen (EmbeddedFileImpl._size f - P) in
  EmbeddedFileImpl.read f buf maxLen =
  (n,
   firstn (Z.to_nat n) (skipn (Z.to_nat P) d) ++ skipn (Z.to_nat n) buf,
   EmbeddedFileImpl.set_pos f (P + n)).
Proof.
  intros Hd Hlen HN HP Hmax Hbuf P n.
  unfold EmbeddedFileImpl.read. rewrite Hd.
  destruct (Z.leb_spec (EmbeddedFileImpl._size f) (EmbeddedFileImpl._pos f));
    [lia|].
  rewrite (wrap_small (EmbeddedFileImpl._size f - EmbeddedFileImpl._pos f))
    by lia.
  assert (Hn : (if maxLen <? EmbeddedFileImpl._size f - EmbeddedFileImpl._pos f
                then maxLen
                else EmbeddedFileImpl._size f - EmbeddedFileImpl._pos f) = n).
  { unfold n, P.
    destruct (Z.ltb_spec maxLen
                (EmbeddedFileImpl._size f - EmbeddedFileImpl._pos f)); lia. }
  rewrite Hn. fold P.
  assert (0 <= n /\ n <= maxLen /\ P + n <= EmbeddedFileImpl._size f)
    as (Hn0 & Hn1 & Hn2) by (unfold n, P; lia).
  rewrite (wrap_small (P + n)) by lia.
  rewrite copy_loop_spec by (cbn; lia).
  cbn [firstn app Nat.add].
  rewrite map_nth_seq by lia.
  reflexivity.
Qed.

(** At or past the end, and on a handle without data, [read] does
    nothing. *)
Lemma read_at_end {T : Target} (f : EmbeddedFileImpl.t)
      (buf : list Byte.byte) (maxLen : Z) :
  EmbeddedFileImpl._size f <= EmbeddedFileImpl._pos f ->
  EmbeddedFileImpl.read f buf maxLen = (0, buf, f).
Proof.
  intros H. unfold EmbeddedFileImpl.read.
  destruct (EmbeddedFileImpl._data f); [|reflexivity].
  destruct (Z.leb_spec (EmbeddedFileImpl._size f) (EmbeddedFileImpl._pos f));
    [reflexivity | lia].
Qed.

Lemma firstn_app_exact (A : Type) (n : nat) (l1 l2 : list A) :
  List.length l1 = n -> firstn n (l1 ++ l2) = l1.
Proof.
  intros <-. rewrite firstn_app, Nat.sub_diag, firstn_all.
  cbn. apply app_nil_r.
Qed.

Lemma sum_nonneg {T : Target} (lens : list Z) :
  Forall in_size_t lens -> 0 <= fold_right Z.add 0 lens.
Proof.
  induction 1 as [|len lens Hlen _ IH]; cbn; [lia|].
  unfold in_size_t in Hlen. lia.
Qed.

(** A sequence of reads delivers the backing range from the position
    on, up to the total length asked for. *)
Lemma read_chunks_spec {T : Target} (lens : list Z)
      (f : EmbeddedFileImpl.t) (d : list Byte.byte) :
  EmbeddedFileImpl._data f = Some d ->
  Z.of_nat (List.length d) = EmbeddedFileImpl._size f ->
  EmbeddedFileImpl._size f < SIZE_MOD ->
  0 <= EmbeddedFileImpl._pos f <= EmbeddedFileImpl._size f ->
  Forall in_size_t lens ->
  let P := EmbeddedFileImpl._pos f in
  let m := Z.min (fold_right Z.add 0 lens) (EmbeddedFileImpl._size f - P) in
  read_chunks f lens =
  (firstn (Z.to_nat m) (skipn (Z.to_nat P) d),
   EmbeddedFileImpl.set_pos f (P + m)).
Proof.
  revert f. induction lens as [|len rest IH]; intros f Hd Hlen HN HP Hall.
  - cbn. replace (Z.min 0 _) with 0 by lia.
    now rewrite Z.add_0_r, set_pos_same.
  - inversion Hall as [|? ? Hl Hrest]; subst.
    pose proof (sum_nonneg rest Hrest) as Hsum.
    unfold in_size_t in Hl.
    cbn [read_chunks fold_right].
    destruct (Z.eq_dec (EmbeddedFileImpl._pos f) (EmbeddedFileImpl._size f))
      as [Hend|Hmid].
    + rewrite read_at_end by lia.
      rewrite (IH f Hd Hlen HN HP Hrest). cbn zeta.
      replace (Z.min (fold_right Z.add 0 rest) _) with 0 by lia.
      replace (Z.min (len + fold_right Z.add 0 rest) _) with 0 by lia.
      reflexivity.
    + rewrite (read_step f d _ len Hd Hlen HN) by
          (try rewrite repeat_length; lia).
      cbn zeta.
      set (P := EmbeddedFileImpl._pos f) in *.
      set (N := EmbeddedFileImpl._size f) in *.
      set (n1 := Z.min len (N - P)).
      assert (Hn1 : 0 <= n1 /\ P + n1 <= N) by (unfold n1; lia).
      rewrite (IH (EmbeddedFileImpl.set_pos f (P + n1)) Hd Hlen HN)
        by (cbn; fold N; try lia; assumption).
      cbn [EmbeddedFileImpl.set_pos EmbeddedFileImpl._pos
           EmbeddedFileImpl._size]. fold N.
      set (m' := Z.min (fold_right Z.add 0 rest) (N - (P + n1))).
      rewrite firstn_app_exact
        by (rewrite length_firstn, length_skipn; lia).
      replace (Z.to_nat (P + n1)) with (Z.to_nat n1 + Z.to_nat P)%nat by lia.
      rewrite <- skipn_skipn, firstn_add_skipn.
      replace (Z.to_nat n1 + Z.to_nat m')%nat
        with (Z.to_nat (Z.min (len + fold_right Z.add 0 rest) (N - P)))
        by (unfold m', n1; lia).
      replace (P + n1 + m')
        with (P + Z.min (len + fold_right Z.add 0 rest) (N - P))
        by (unfold m', n1; lia).
      reflexivity.
Qed.

Lemma read_no_data {T : Target} (f : EmbeddedFileImpl.t)
      (buf : list Byte.byte) (maxLen : Z) :
  EmbeddedFileImpl._data f = None ->
  EmbeddedFileImpl.read f buf maxLen = (0, buf, f).
Proof. intros H. unfold EmbeddedFileImpl.read. now rewrite H. Qed.

Lemma read_chunks_no_data {T : Target} (f : EmbeddedFileImpl.t)
      (lens : list Z) :
  EmbeddedFileImpl._data f = None -> read_chunks f lens = ([], f).
Proof.
  intros H. induction lens as [|len rest IH]; [reflexivity|].
  cbn [read_chunks]. rewrite (read_no_data f _ len H), IH. reflexivity.
Qed.

(** C5 (amended). On a handle bound to a backing range of [N] bytes, at
    position [P]: [read(buf, maxLen)] copies the [min(maxLen, N - P)]
    bytes of the range that start at offset [P] to the front of the
    buffer, leaves the rest of the buffer alone, advances the position
    by that count and returns it; at [P >= N] it returns 0 and changes
    nothing. Reads whose lengths add up to at least what is left deliver
    exactly the rest of the range ([N] bytes, the whole range, from
    position 0), end at position [N], and every read after that
    returns 0. On a handle whose data reference is null, every read
    returns 0 and changes nothing, whatever its size and position, so
    repeated reads deliver no byte at all. *)
Theorem read_exhaustion {T : Target} (f : EmbeddedFileImpl.t) :
  let N := EmbeddedFileImpl._size f in
  let P := EmbeddedFileImpl._pos f in
  (forall d,
     EmbeddedFileImpl._data f = Some d ->
     Z.of_nat (List.length d) = N ->
     N < SIZE_MOD ->
     0 <= P ->
     (forall buf maxLen,
        in_size_t maxLen ->
        maxLen <= Z.of_nat (List.length buf) ->
        let n := Z.min maxLen (N - P) in
        (P < N ->
         EmbeddedFileImpl.read f buf maxLen =
         (n,
          firstn (Z.to_nat n) (skipn (Z.to_nat P) d)
          ++ skipn (Z.to_nat n) buf,
          EmbeddedFileImpl.set_pos f (P + n))) /\
        (N <= P -> EmbeddedFileImpl.read f buf maxLen = (0, buf, f)))
     /\
     (forall lens,
        Forall in_size_t lens ->
        P <= N ->
        N - P <= fold_right Z.add 0 lens ->
        let out := fst (read_chunks f lens) in
        let f' := snd (read_chunks f lens) in
        out = skipn (Z.to_nat P) d /\
        Z.of_nat (List.length out) = N - P /\
        EmbeddedFileImpl._pos f' = N /\
        forall buf maxLen,
          EmbeddedFileImpl.read f' buf maxLen = (0, buf, f')))
  /\
  (EmbeddedFileImpl._data f = None ->
   (forall buf maxLen, EmbeddedFileImpl.read f buf maxLen = (0, buf, f)) /\
   (forall lens, read_chunks f lens = ([], f))).
Proof.
  intros N P. split.
  - intros d Hd Hlen HN HP. split.
    + intros buf maxLen Hmax Hbuf n. split; intros H.
      * apply read_step; auto; fold N P; lia.
      * apply read_at_end. exact H.
    + intros lens Hall HPN Hsum out f'.
      unfold out, f'.
      rewrite (read_chunks_spec lens f d Hd Hlen HN) by (fold N P; auto; lia).
      fold N P.
      replace (Z.min (fold_right Z.add 0 lens) (N - P)) with (N - P) by lia.
      cbn [fst snd].
      assert (Hall_d : firstn (Z.to_nat (N - P)) (skipn (Z.to_nat P) d)
                       = skipn (Z.to_nat P) d)
        by (apply firstn_all2; rewrite length_skipn; lia).
      rewrite Hall_d. repeat split.
      * rewrite length_skipn. lia.
      * cbn. lia.
      * intros buf maxLen. apply read_at_end. cbn. lia.
  - intros Hnull. split.
    + intros buf maxLen. now apply read_no_data.
    + intros lens. now apply read_chunks_no_data.
Qed.

(** C5 (witness): a three-byte file read in chunks of two. *)
Lemma read_exhaustion_witness :
  let d := [Byte.x68; Byte.x69; Byte.x21] in
  let f := EmbeddedFileImpl.make (Some "/hello.txt") (Some d) 3 in
  EmbeddedFileImpl.read (T := ILP32) f [Byte.x00; Byte.x00] 2
  = (2, [Byte.x68; Byte.x69], EmbeddedFileImpl.set_pos f 2) /\
  fst (read_chunks (T := ILP32) f [2; 2]) = d /\
  EmbeddedFileImpl._pos (snd (read_chunks (T := ILP32) f [2; 2])) = 3.
Proof.
  intros d f.
  assert (Hd : EmbeddedFileImpl._data f = Some d) by reflexivity.
  assert (Hlen : Z.of_nat (List.length d) = EmbeddedFileImpl._size f)
    by reflexivity.
  assert (HN : EmbeddedFileImpl._size f < @SIZE_MOD ILP32) by reflexivity.
  assert (HP : 0 <= EmbeddedFileImpl._pos f) by (cbn; lia).
  destruct (proj1 (read_exhaustion (T := ILP32) f) d Hd Hlen HN HP)
    as [Hone Hmany].
  assert (Hin2 : @in_size_t ILP32 2)
    by (unfold in_size_t; rewrite SIZE_MOD_ILP32; lia).
  assert (Hbuf : 2 <= Z.of_nat (List.length [Byte.x00; Byte.x00]))
    by (cbn; lia).
  assert (Hall : Forall (@in_size_t ILP32) [2; 2])
    by (constructor; [exact Hin2 | constructor; [exact Hin2 | constructor]]).
  assert (HPN : EmbeddedFileImpl._pos f <= EmbeddedFileImpl._size f)
    by (cbn; lia).
  assert (Hsum : EmbeddedFileImpl._size f - EmbeddedFileImpl._pos f
                 <= fold_right Z.add 0 [2; 2]) by (cbn; lia).
  split.
  - destruct (Hone [Byte.x00; Byte.x00] 2 Hin2 Hbuf) as [Hread _].
    rewrite Hread by (cbn; lia). reflexivity.
  - destruct (Hmany [2; 2] Hall HPN Hsum) as (Hout & _ & Hpos & _).
    split; [exact Hout | exact Hpos].
Defined.

(** C5 (counterexample). An entry may carry a null data pointer with a
    size that is not 0; [open] binds the handle to both as they are. On
    that handle, of size 5 at position 0, [read(buf, 2)] returns 0
    instead of [min(2, 5 - 0) = 2] and copies nothing, and reads asking
    for ten bytes in all deliver none, on either target. *)
Lemma read_null_data_counterexample :
  let this := [mkEntry (Some "/blob") None 5] in
  let f := EmbeddedFileImpl.mk (Some "/blob") (Some "blob") None 5 0 in
  let buf := [Byte.x00; Byte.x00] in
  Full.open this (Some "/blob") = Some (FileH f) /\
  Z.min 2 (EmbeddedFileImpl._size f - EmbeddedFileImpl._pos f) = 2 /\
  EmbeddedFileImpl.read (T := ILP32) f buf 2 = (0, buf, f) /\
  EmbeddedFileImpl.read (T := LP64) f buf 2 = (0, buf, f) /\
  read_chunks (T := ILP32) f [5; 5] = ([], f) /\
  read_chunks (T := LP64) f [5; 5] = ([], f).
Proof. repeat split. Qed.

(** ** [close] *)

(** C9 (amended). [EmbedFSFile::close] is idempotent and resets the
    handle: data reference, size and position are zeroed and the handle
    converts to false. [EmbeddedFileImpl::close] is idempotent too, but
    it is empty: it leaves the handle as it is. *)
Theorem close_resets_compat_handle :
  (forall f : EmbedFSFile.t,
     let c := EmbedFSFile.close f in
     EmbedFSFile.dataPtr_ c = None /\
     EmbedFSFile.dataSize_ c = 0 /\
     EmbedFSFile.pos_ c = 0 /\
     EmbedFSFile.valid c = false /\
     c = EmbedFSFile.empty_file /\
     EmbedFSFile.close c = c)
  /\
  (forall f : EmbeddedFileImpl.t,
     EmbeddedFileImpl.close f = f /\
     EmbeddedFileImpl.close (EmbeddedFileImpl.close f)
     = EmbeddedFileImpl.close f).
Proof. split; intros f; repeat split. Qed.

(** C9 (counterexample). A one-byte [EmbeddedFileImpl] handle, read to
    its end and closed, still holds its data, size and position and
    still converts to true. *)
Lemma close_impl_counterexample :
  let f := EmbeddedFileImpl.mk (Some "/a") (Some "a") (Some [Byte.x2a]) 1 1 in
  let c := EmbeddedFileImpl.close f in
  EmbeddedFileImpl._data c = Some [Byte.x2a] /\
  EmbeddedFileImpl._size c = 1 /\
  EmbeddedFileImpl._pos c = 1 /\
  EmbeddedFileImpl.valid c = true.
Proof. repeat split. Qed.

(** ** The mount life cycle *)

(** C7. From the unmounted state, [begin] returns true exactly when the
    three arrays are non-null and the count is positive; it then is
    mounted on the index built from its arguments. Otherwise it returns
    false and the object is left as it was, unmounted. *)
Theorem begin_mounts_iff (fs : EmbedFSFS.t)
        (file_names : option (list (option string)))
        (file_data : option (list (option (list Byte.byte))))
        (file_sizes : option (list Z)) (file_count : Z) :
  EmbedFSFS.mounted fs = false ->
  0 <= file_count ->
  let r := EmbedFSFS.begin fs file_names file_data file_sizes file_count in
  (fst r = true <->
   file_names <> None /\ file_data <> None /\ file_sizes <> None
   /\ 0 < file_count)
  /\
  (fst r = true ->
   EmbedFSFS.mounted (snd r) = true /\
   exists names data sizes,
     file_names = Some names /\ file_data = Some data /\
     file_sizes = Some sizes /\
     snd r = EmbedFSFS.mk
               (Some (EmbedFSImpl_make names data sizes file_count))
               file_names file_data file_sizes file_count)
  /\
  (fst r = false -> snd r = fs /\ EmbedFSFS.mounted (snd r) = false).
Proof.
  intros Hun Hcount r. subst r.
  unfold EmbedFSFS.begin.
  assert (Hfailed :
            (fst (false, fs) = true <->
             file_names <> None /\ file_data <> None /\ file_sizes <> None
             /\ 0 < file_count) ->
            (fst (false, fs) = true <->
             file_names <> None /\ file_data <> None /\ file_sizes <> None
             /\ 0 < file_count)
            /\ (fst (false, fs) = true ->
                EmbedFSFS.mounted (snd (false, fs)) = true /\
                exists names data sizes,
                  file_names = Some names /\ file_data = Some data /\
                  file_sizes = Some sizes /\
                  snd (false, fs) =
                  EmbedFSFS.mk
                    (Some (EmbedFSImpl_make names data sizes file_count))
                    file_names file_data file_sizes file_count)
            /\ (fst (false, fs) = false ->
                snd (false, fs) = fs /\
                EmbedFSFS.mounted (snd (false, fs)) = false)).
  { intros Hiff. split; [exact Hiff|]. cbn. split; [discriminate|].
    intros _. split; [reflexivity | exact Hun]. }
  destruct file_names as [names|];
    [|apply Hfailed; cbn; split; [discriminate | intros (H & _); congruence]].
  destruct file_data as [data|];
    [|apply Hfailed; cbn; split;
      [discriminate | intros (_ & H & _); congruence]].
  destruct file_sizes as [sizes|];
    [|apply Hfailed; cbn; split;
      [discriminate | intros (_ & _ & H & _); congruence]].
  destruct (Z.eqb_spec file_count 0) as [H0|H0].
  - apply Hfailed. cbn. split; [discriminate | intros (_ & _ & _ & H); lia].
  - cbn. split; [|split].
    + split; [|reflexivity]. intros _.
      repeat split; try discriminate. lia.
    + intros _. split; [reflexivity|].
      exists names, data, sizes. repeat split.
    + discriminate.
Qed.

(** C7 (witness): one entry mounts, a null array of names does not. *)
Lemma begin_mounts_iff_witness :
  let names := Some [Some "/hello.txt"] in
  let data := Some [Some [Byte.x68; Byte.x69]] in
  let sizes := Some [2] in
  fst (EmbedFSFS.begin EmbedFSFS.init names data sizes 1) = true /\
  snd (EmbedFSFS.begin EmbedFSFS.init None data sizes 1) = EmbedFSFS.init.
Proof.
  intros names data sizes.
  assert (Hun : EmbedFSFS.mounted EmbedFSFS.init = false) by reflexivity.
  assert (Hc : 0 <= 1) by lia.
  split.
  - destruct (begin_mounts_iff EmbedFSFS.init names data sizes 1 Hun Hc)
      as [[_ Hyes] _].
    apply Hyes. repeat split; discriminate.
  - destruct (begin_mounts_iff EmbedFSFS.init None data sizes 1 Hun Hc)
      as (_ & _ & Hno).
    apply Hno. reflexivity.
Defined.

Lemma unmounted_impl (fs : EmbedFSFS.t) :
  EmbedFSFS.unmounted fs -> EmbedFSFS._impl fs = None.
Proof.
  induction 1 as [| fs | fs names data sizes count Hfs IH Hfail].
  - reflexivity.
  - reflexivity.
  - unfold EmbedFSFS.begin in *.
    destruct names, data, sizes; try exact IH.
    destruct (count =? 0); [exact IH | discriminate Hfail].
Qed.

(** C8. While the object is unmounted (freshly constructed, after
    [end], or after any number of failed [begin]s from there), for every
    path [exists] returns false and [open] returns the empty, invalid
    handle. *)
Theorem unmounted_resolves_nothing (fs : EmbedFSFS.t)
        (path : option string) :
  EmbedFSFS.unmounted fs ->
  EmbedFSFS.exists_ fs path = false /\
  EmbedFSFS.open fs path = None /\
  File_valid (EmbedFSFS.open fs path) = false.
Proof.
  intros H. apply unmounted_impl in H.
  unfold EmbedFSFS.exists_, EmbedFSFS.open. rewrite H.
  repeat split.
Qed.

(** C8 (witness): mounted, then ended. *)
Lemma unmounted_resolves_nothing_witness :
  let mounted_fs :=
    snd (EmbedFSFS.begin EmbedFSFS.init
           (Some [Some "/hello.txt"]) (Some [Some [Byte.x68; Byte.x69]])
           (Some [2]) 1) in
  EmbedFSFS.exists_ mounted_fs (Some "/hello.txt") = true /\
  EmbedFSFS.exists_ (EmbedFSFS.end_ mounted_fs) (Some "/hello.txt") = false /\
  EmbedFSFS.open (EmbedFSFS.end_ mounted_fs) (Some "/hello.txt") = None.
Proof.
  intros mounted_fs. split; [reflexivity|].
  destruct (unmounted_resolves_nothing
              (EmbedFSFS.end_ mounted_fs) (Some "/hello.txt")
              (EmbedFSFS.unmounted_end mounted_fs)) as (Hex & Hopen & _).
  split; [exact Hex | exact Hopen].
Defined.


(** ** The specification's children, read back *)

Lemma first_seen_In (seen names : list string) (x : string) :
  In x (Spec.first_seen seen names) <-> In x names /\ ~ In x seen.
Proof.
  revert seen. induction names as [|y names IH]; intros seen; cbn.
  - tauto.
  - destruct (Spec.mem y seen) eqn:E.
    + apply mem_true_iff in E. rewrite IH. split.
      * tauto.
      * intros [[->|H] Hs]; [contradiction | tauto].
    + apply mem_false_iff in E. cbn. rewrite IH. cbn. split.
      * intros [->|[H Hs]]; [tauto|]. split; [tauto|]. intros Hx. tauto.
      * intros [[->|H] Hs]; [tauto|].
        destruct (string_dec y x) as [->|Hne]; [tauto|]. right. tauto.
Qed.

(** Every occurrence's name is listed, and nothing else. *)
Lemma dedup_names_In (occ : list EmbeddedDirImpl.Entry) (x : string) :
  In x (names_of (Spec.dedup occ)) <-> In x (names_of occ).
Proof.
  unfold names_of at 1. unfold Spec.dedup. rewrite map_map. cbn.
  rewrite map_id, first_seen_In. fold (names_of occ). cbn. tauto.
Qed.

(** A listed child is a directory exactly when one of its occurrences
    is. *)
Lemma dedup_isDir (occ : list EmbeddedDirImpl.Entry)
      (c : EmbeddedDirImpl.Entry) :
  In c (Spec.dedup occ) ->
  (EmbeddedDirImpl.isDir c = true <->
   exists o, In o occ /\
             EmbeddedDirImpl.path o = EmbeddedDirImpl.path c /\
             EmbeddedDirImpl.isDir o = true).
Proof.
  unfold Spec.dedup. rewrite in_map_iff. intros (n & <- & _). cbn.
  unfold Spec.any_dir. rewrite existsb_exists. split.
  - intros (o & Hin & H). apply andb_true_iff in H. destruct H as [Hp Hd].
    apply String.eqb_eq in Hp. now exists o.
  - intros (o & Hin & Hp & Hd). exists o. split; [exact Hin|].
    now rewrite Hp, String.eqb_refl, Hd.
Qed.

(** ** The specification's scenarios, evaluated *)

Example scenario_files_and_directory :
  let hi := [Byte.x68; Byte.x69] in
  let yo := [Byte.x79; Byte.x6f] in
  let this := [mkEntry (Some "/hello.txt") (Some hi) 2;
               mkEntry (Some "/dir/inner.txt") (Some yo) 2] in
  Full.exists_ this (Some "/hello.txt") = true /\
  Full.open this (Some "/hello.txt") =
    Some (FileH (EmbeddedFileImpl.mk (Some "/hello.txt") (Some "hello.txt")
                   (Some hi) 2 0)) /\
  Full.open this (Some "/missing") = None /\
  Full.open this (Some "/dir") =
    Some (DirH (EmbeddedDirImpl.mk (Some "/dir") (Some "dir") (Some this)
                  [EmbeddedDirImpl.mkEntry "/dir/inner.txt" false] 0)) /\
  Full.open this (Some "/") =
    Some (DirH (EmbeddedDirImpl.mk (Some "/") (Some "/") (Some this)
                  [EmbeddedDirImpl.mkEntry "/hello.txt" false;
                   EmbeddedDirImpl.mkEntry "/dir" true] 0)).
Proof. repeat split. Qed.

Example scenario_read_hello :
  let hi := [Byte.x68; Byte.x69] in
  let f := EmbeddedFileImpl.make (Some "/hello.txt") (Some hi) 2 in
  EmbeddedFileImpl.read (T := ILP32) f (repeat Byte.x00 10) 10 =
  (2, hi ++ repeat Byte.x00 8, EmbeddedFileImpl.set_pos f 2).
Proof. reflexivity. Qed.

Example scenario_child_deduplication :
  let this := [mkEntry (Some "/a/x.txt") (Some []) 0;
               mkEntry (Some "/a/y.txt") (Some []) 0;
               mkEntry (Some "/a/x.txt/") (Some []) 0;
               mkEntry (Some "/a/y.txt/z") (Some []) 0] in
  Full.scan this "a" "a/" [] =
  [EmbeddedDirImpl.mkEntry "/a/x.txt" false;
   EmbeddedDirImpl.mkEntry "/a/y.txt" true].
Proof. reflexivity. Qed.

Example scenario_directory_walk :
  let this := [mkEntry (Some "/dir/inner.txt") (Some [Byte.x79]) 1] in
  let dir := EmbeddedDirImpl.make (Some "/dir") (Some this)
               [EmbeddedDirImpl.mkEntry "/dir/inner.txt" false] in
  let '(child, dir') := Full.openNextFile (T := ILP32) dir in
  child = Some (FileH (EmbeddedFileImpl.mk (Some "/dir/inner.txt")
                         (Some "inner.txt") (Some [Byte.x79]) 1 0)) /\
  fst (Full.openNextFile (T := ILP32) dir') = None /\
  EmbeddedDirImpl.rewindDirectory dir' = dir.
Proof. repeat split. Qed.


(** * Further properties of the code *)

(** ** What normalization removes *)

Lemma append_empty_r (s : string) : (s ++ "")%string = s.
Proof. induction s as [|a s IH]; cbn; [reflexivity | now rewrite IH]. Qed.

Lemma append_assoc_string (a b c : string) :
  ((a ++ b) ++ c)%string = (a ++ (b ++ c))%string.
Proof. induction a as [|x a IH]; cbn; [reflexivity | now rewrite IH]. Qed.

Lemma slashes_snoc (k : nat) :
  (slashes k ++ "/")%string = slashes (S k).
Proof. induction k as [|k IH]; cbn in *; [reflexivity | now rewrite IH]. Qed.

Lemma pop_back_app_slash (s : string) : pop_back (s ++ "/") = s.
Proof.
  induction s as [|a s IH]; [reflexivity|].
  cbn [String.append]. destruct s as [|b s'].
  - reflexivity.
  - cbn [String.append] in *.
    change (pop_back (String a (String b (s' ++ "/"))))
      with (String a (pop_back (String b (s' ++ "/")))).
    now rewrite IH.
Qed.

Lemma ends_with_slash_pop_back (s : string) :
  ends_with_slash s = true -> s = (pop_back s ++ "/")%string.
Proof.
  unfold ends_with_slash.
  induction s as [|a s IH]; [discriminate|].
  destruct s as [|b s'].
  - cbn. intros H. apply Ascii.eqb_eq in H. now subst a.
  - intros H. cbn [pop_back String.append]. f_equal. apply IH. exact H.
Qed.

Lemma strip_trailing_loop_decomp (fuel : nat) (s : string) :
  exists k, s = (strip_trailing_loop fuel s ++ slashes k)%string.
Proof.
  revert s. induction fuel as [|n IH]; intros s.
  - exists 0%nat. cbn. now rewrite append_empty_r.
  - cbn [strip_trailing_loop]. fold (ends_with_slash s).
    destruct (ends_with_slash s) eqn:E.
    + destruct (IH (pop_back s)) as [k Hk]. exists (S k).
      rewrite <- slashes_snoc, <- append_assoc_string, <- Hk.
      now apply ends_with_slash_pop_back.
    + exists 0%nat. cbn. now rewrite append_empty_r.
Qed.

(** X1. Normalization only removes characters at the two ends: the path
    is its normalized form between at most one leading slash and a run
    of trailing slashes. Nothing in the middle is rewritten, and the
    result does not end with a slash. *)
Theorem normalize_decomposition (p : string) :
  exists lead k,
    p = (lead ++ normalize p ++ slashes k)%string /\
    (lead = EmptyString \/ lead = "/"%string) /\
    ends_with_slash (normalize p) = false /\
    (String.length (normalize p) <= String.length p)%nat.
Proof.
  destruct (strip_trailing_loop_decomp (size (strip_leading p))
              (strip_leading p)) as [k Hk].
  fold (strip_trailing (strip_leading p)) in Hk. fold (normalize p) in Hk.
  assert (Hlead : exists lead,
             p = (lead ++ strip_leading p)%string /\
             (lead = EmptyString \/ lead = "/"%string)).
  { unfold strip_leading. destruct p as [|a t].
    - exists EmptyString. split; [reflexivity | now left].
    - cbn [empty negb andb front_is].
      destruct (Ascii.eqb_spec a slash) as [->|].
      + exists "/"%string. split; [reflexivity | now right].
      + exists EmptyString. split; [reflexivity | now left]. }
  destruct Hlead as (lead & Hp & Hl).
  assert (Hfull : p = (lead ++ normalize p ++ slashes k)%string).
  { rewrite Hp at 1. now rewrite Hk at 1. }
  exists lead, k. split; [exact Hfull|split; [exact Hl|split]].
  - apply normalize_exit.
  - apply (f_equal String.length) in Hfull.
    rewrite !length_append in Hfull. lia.
Qed.

Lemma strip_trailing_app_slash (s : string) :
  strip_trailing (s ++ "/") = strip_trailing s.
Proof.
  unfold strip_trailing, size. rewrite length_append. cbn [String.length].
  rewrite Nat.add_1_r. cbn [strip_trailing_loop].
  fold (ends_with_slash (s ++ "/")).
  now rewrite ends_with_slash_app, pop_back_app_slash.
Qed.

Lemma normalize_app_slash (p : string) :
  normalize (p ++ "/") = normalize p.
Proof.
  unfold normalize. destruct p as [|a t]; [reflexivity|].
  assert (strip_leading (String a t ++ "/")
          = (strip_leading (String a t) ++ "/")%string) as ->.
  { unfold strip_leading. cbn [String.append empty negb andb front_is].
    destruct (Ascii.eqb a slash); reflexivity. }
  apply strip_trailing_app_slash.
Qed.

Lemma normalize_app_slashes (p : string) (k : nat) :
  normalize (p ++ slashes k) = normalize p.
Proof.
  revert p. induction k as [|k IH]; intros p.
  - cbn. now rewrite append_empty_r.
  - rewrite <- slashes_snoc, <- append_assoc_string, normalize_app_slash.
    apply IH.
Qed.

Lemma normalize_cons_slash (p : string) :
  front_is p slash = false -> normalize (String slash p) = normalize p.
Proof.
  intros H. unfold normalize. f_equal. unfold strip_leading at 2.
  rewrite H, andb_false_r. reflexivity.
Qed.

(** X2. Trailing slashes on a query never matter, and neither does one
    leading slash in front of a query that does not begin with one:
    [open] and [exists] answer the same. *)
Theorem query_slashes_irrelevant (this : EmbedFSImpl) (p : string)
        (k : nat) :
  Full.open this (Some (p ++ slashes k)%string) = Full.open this (Some p) /\
  Full.exists_ this (Some (p ++ slashes k)%string)
  = Full.exists_ this (Some p) /\
  (front_is p slash = false ->
   Full.open this (Some (String slash p)) = Full.open this (Some p) /\
   Full.exists_ this (Some (String slash p)) = Full.exists_ this (Some p)).
Proof.
  unfold Full.open, Full.exists_.
  rewrite normalize_app_slashes. split; [reflexivity|].
  split; [reflexivity|].
  intros H. rewrite (normalize_cons_slash p H). split; reflexivity.
Qed.

(** X2 (witness). *)
Lemma query_slashes_irrelevant_witness :
  let this := [mkEntry (Some "/dir/inner.txt") (Some [Byte.x79]) 1] in
  front_is "dir" slash = false /\
  Full.open this (Some "/dir") = Full.open this (Some "dir") /\
  Full.open this (Some "dir//") = Full.open this (Some "dir").
Proof.
  intros this. split; [reflexivity|].
  destruct (query_slashes_irrelevant this "dir" 2) as (Htrail & _ & Hlead).
  split; [apply Hlead; reflexivity | exact Htrail].
Defined.

Lemma normalize_display (p : string) :
  normalize (display_of (normalize p)) = normalize p.
Proof.
  pose proof (normalize_exit p) as Hexit.
  unfold display_of. destruct (normalize p) as [|a q] eqn:E; [reflexivity|].
  cbn [empty]. unfold normalize at 1.
  change (strip_leading ("/" ++ String a q)) with (String a q).
  now apply strip_trailing_fixed.
Qed.

Lemma open_path (this : EmbedFSImpl) (path : string) (h : FileImpl) :
  Full.open this (Some path) = Some h ->
  FileImpl_path h = Some (display_of (normalize path)).
Proof.
  unfold Full.open.
  destruct (Full.find_exact this (normalize path)).
  - intros H. inversion H. reflexivity.
  - destruct (negb _ || _); [|discriminate].
    intros H. inversion H. reflexivity.
Qed.

(** X3. Round trip through [path()]: the path a handle reports is the
    display form of the normalized query, and opening that path again
    yields the same handle. *)
Theorem open_reopen_by_path (this : EmbedFSImpl) (path : string)
        (h : FileImpl) :
  Full.open this (Some path) = Some h ->
  FileImpl_path h = Some (display_of (normalize path)) /\
  Full.open this (FileImpl_path h) = Some h.
Proof.
  intros H. pose proof (open_path _ _ _ H) as Hp.
  split; [exact Hp|]. rewrite Hp, <- H.
  unfold Full.open. now rewrite normalize_display.
Qed.

(** X3 (witness). *)
Lemma open_reopen_by_path_witness :
  let this := [mkEntry (Some "dir/inner.txt/") (Some [Byte.x79]) 1] in
  let h := FileH (EmbeddedFileImpl.mk (Some "/dir/inner.txt")
                    (Some "inner.txt") (Some [Byte.x79]) 1 0) in
  Full.open this (Some "dir/inner.txt//") = Some h /\
  Full.open this (Some "/dir/inner.txt") = Some h.
Proof.
  intros this h.
  assert (H : Full.open this (Some "dir/inner.txt//") = Some h)
    by reflexivity.
  split; [exact H|].
  exact (proj2 (open_reopen_by_path this "dir/inner.txt//" h H)).
Defined.

(** ** [exists] and [open] agree *)

Lemma under_prefix_occurrence (pfx : string) (e : Entry) (n : string) :
  e_name e = Some n ->
  ((size pfx <? size (normalize n))%nat
   && compare_eq (normalize n) (size pfx) pfx = true
   <-> exists o, Spec.occurrence pfx e = Some o).
Proof.
  intros En. unfold Spec.occurrence. rewrite En.
  unfold compare_eq, size. split.
  - intros H. apply andb_true_iff in H. destruct H as [Hlt Heq].
    apply Nat.ltb_lt in Hlt. apply String.eqb_eq in Heq.
    destruct (substring_prefix_inv _ _ Heq) as [r Hr].
    rewrite Hr, strip_prefix_app.
    rewrite Hr, length_append in Hlt.
    destruct r as [|a r]; [cbn in Hlt; lia|]. eauto.
  - intros [o Ho].
    destruct (Spec.strip_prefix pfx (normalize n)) as [r|] eqn:Hsp;
      [|discriminate].
    apply strip_prefix_Some in Hsp.
    destruct r as [|a r]; [discriminate|].
    rewrite Hsp, length_append, substring_prefix_app, String.eqb_refl.
    rewrite andb_true_r. apply Nat.ltb_lt. cbn. lia.
Qed.

Lemma exists_prefix_occurrences (this : EmbedFSImpl) (q : string) :
  q <> EmptyString ->
  (Full.exists_prefix this (Full.prefix_of q) = true
   <-> Spec.occurrences (Full.prefix_of q) this <> []).
Proof.
  intros Hq.
  assert (Hne : empty (Full.prefix_of q) = false)
    by (destruct q; [contradiction | reflexivity]).
  induction this as [|e rest IH]; cbn [Full.exists_prefix Spec.occurrences].
  - split; [discriminate | intros H; now contradiction H].
  - destruct (e_name e) as [n|] eqn:En.
    + rewrite Hne. cbn [orb].
      pose proof (under_prefix_occurrence (Full.prefix_of q) e n En) as Hu.
      destruct ((size (Full.prefix_of q) <? size (normalize n))%nat
                && compare_eq (normalize n) (size (Full.prefix_of q))
                     (Full.prefix_of q)).
      * destruct (proj1 Hu eq_refl) as [o ->].
        split; [discriminate | reflexivity].
      * destruct (Spec.occurrence (Full.prefix_of q) e) as [o|] eqn:Ho;
          [|exact IH].
        destruct Hu as [_ Hu]. discriminate Hu. eauto.
    + assert (Spec.occurrence (Full.prefix_of q) e = None) as ->
        by (unfold Spec.occurrence; now rewrite En).
      exact IH.
Qed.

Lemma dedup_nil (occ : list EmbeddedDirImpl.Entry) :
  Spec.dedup occ = [] <-> occ = [].
Proof.
  split; [|intros ->; reflexivity].
  destruct occ as [|o occ]; [reflexivity | discriminate].
Qed.

Lemma exists_open_agree (this : EmbedFSImpl) (path : option string) :
  Full.exists_ this path = true <-> Full.open this path <> None.
Proof.
  destruct path as [path|]; [|split; [discriminate | intros H; now contradiction H]].
  unfold Full.exists_, Full.open.
  destruct (normalize path) as [|a q] eqn:Eq.
  - cbn [empty]. split; [|reflexivity]. intros _.
    destruct (Full.find_exact this ""); [discriminate|].
    rewrite orb_true_r. discriminate.
  - cbn [empty]. rewrite orb_false_r.
    destruct (Full.find_exact this (String a q));
      [split; [discriminate | reflexivity]|].
    rewrite scan_children, exists_prefix_occurrences by discriminate.
    unfold Spec.children. rewrite <- dedup_nil.
    destruct (Spec.dedup _); cbn.
    + split; [intros H; now contradiction H | intros H; now contradiction H].
    + split; discriminate.
Qed.

(** X4. [exists(path)] is true exactly when [open(path)] returns a
    handle: a null path and a path that is neither an entry nor a
    directory give false and the empty pointer, everything else true and
    a handle. *)
Theorem exists_iff_open (this : EmbedFSImpl) (path : option string) :
  Full.exists_ this path = true <-> Full.open this path <> None.
Proof.
  split; intros H.
  - now apply exists_open_agree.
  - destruct (Full.exists_ this path) eqn:E; [reflexivity|].
    apply exists_open_agree in H. congruence.
Qed.

(** ** The name of a handle *)

Lemma strrchr_tail_none (s : string) :
  strrchr_tail s = None -> find s slash = None.
Proof.
  induction s as [|a s IH]; [reflexivity|]. cbn.
  destruct (strrchr_tail s); [discriminate|].
  destruct (Ascii.eqb a slash); [discriminate|].
  intros _. now rewrite IH.
Qed.

Lemma strrchr_tail_spec (s r : string) :
  strrchr_tail s = Some r ->
  exists pre, s = (pre ++ String slash r)%string /\ find r slash = None.
Proof.
  revert r. induction s as [|a s IH]; intros r; [discriminate|]. cbn.
  destruct (strrchr_tail s) as [r'|] eqn:E.
  - intros H. inversion H; subst r'.
    destruct (IH r eq_refl) as (pre & -> & Hr).
    now exists (String a pre).
  - destruct (Ascii.eqb_spec a slash) as [->|]; [|discriminate].
    intros H. inversion H; subst r.
    exists EmptyString. split; [reflexivity | now apply strrchr_tail_none].
Qed.

Lemma ends_with_slash_cons (a : ascii) (q : string) :
  q <> EmptyString ->
  ends_with_slash (String a q) = ends_with_slash q.
Proof. destruct q; [contradiction | reflexivity]. Qed.

Lemma ends_with_slash_app_cons (pre r : string) :
  ends_with_slash (pre ++ String slash r) = false -> r <> EmptyString.
Proof.
  intros H ->. now rewrite ends_with_slash_app in H.
Qed.

Lemma open_name (this : EmbedFSImpl) (path : string) (h : FileImpl) :
  Full.open this (Some path) = Some h ->
  FileImpl_name h = name_of_path (FileImpl_path h).
Proof.
  unfold Full.open.
  destruct (Full.find_exact this (normalize path)).
  - intros H. inversion H. reflexivity.
  - destruct (negb _ || _); [|discriminate].
    intros H. inversion H. reflexivity.
Qed.

(** X5. The name of an opened handle is the last segment of its path:
    it is not empty, holds no slash, and the path is a directory part,
    a slash and the name. The root is the exception: its name is ["/"]. *)
Theorem open_name_is_last_segment (this : EmbedFSImpl) (path : string)
        (h : FileImpl) :
  Full.open this (Some path) = Some h ->
  (normalize path = EmptyString ->
   FileImpl_path h = Some "/"%string /\ FileImpl_name h = Some "/"%string)
  /\
  (normalize path <> EmptyString ->
   exists dir name,
     FileImpl_name h = Some name /\
     name <> EmptyString /\
     find name slash = None /\
     FileImpl_path h = Some (dir ++ "/" ++ name)%string).
Proof.
  intros H. pose proof (open_name _ _ _ H) as Hn.
  pose proof (open_path _ _ _ H) as Hp. rewrite Hp in Hn.
  pose proof (normalize_exit path) as Hexit.
  split; intros Hq.
  - rewrite Hn, Hp, Hq. split; reflexivity.
  - destruct (normalize path) as [|a q] eqn:E; [contradiction|].
    unfold display_of in *. cbn [empty] in *.
    set (s := ("/" ++ String a q)%string) in *.
    assert (Hs : ends_with_slash s = false).
    { unfold s. cbn [String.append].
      rewrite ends_with_slash_cons by discriminate. exact Hexit. }
    unfold name_of_path in Hn.
    destruct (strrchr_tail s) as [r|] eqn:Hr.
    + destruct (strrchr_tail_spec _ _ Hr) as (pre & Hpre & Hno).
      assert (Hne : r <> EmptyString)
        by (apply (ends_with_slash_app_cons pre); now rewrite <- Hpre).
      destruct r as [|b r]; [contradiction|].
      exists pre, (String b r). repeat split; try assumption.
      rewrite Hp. f_equal. exact Hpre.
    + apply strrchr_tail_none in Hr. discriminate Hr.
Qed.

(** X5 (witness). *)
Lemma open_name_is_last_segment_witness :
  let this := [mkEntry (Some "assets/img/logo.png/") (Some []) 0] in
  let h := DirH (EmbeddedDirImpl.mk (Some "/assets/img") (Some "img")
                   (Some this)
                   [EmbeddedDirImpl.mkEntry "/assets/img/logo.png" false]
                   0) in
  Full.open this (Some "/assets/img") = Some h /\
  exists dir name,
    FileImpl_name h = Some name /\
    name <> EmptyString /\
    find name slash = None /\
    FileImpl_path h = Some (dir ++ "/" ++ name)%string.
Proof.
  intros this h.
  assert (H : Full.open this (Some "/assets/img") = Some h) by reflexivity.
  split; [exact H|].
  apply (proj2 (open_name_is_last_segment this "/assets/img" h H)).
  vm_compute. discriminate.
Defined.

(** ** Listed children resolve *)

Lemma find_split (s : string) (c : ascii) (k : nat) :
  find s c = Some k ->
  exists tail,
    s = (substring 0 k s ++ String c tail)%string /\
    find (substring 0 k s) c = None.
Proof.
  revert k. induction s as [|a s IH]; intros k; [discriminate|]. cbn [find].
  destruct (Ascii.eqb_spec a c) as [->|Hne].
  - intros H. inversion H; subst k. exists s. split; reflexivity.
  - destruct (find s c) as [j|]; [|discriminate].
    intros H. inversion H; subst k.
    destruct (IH j eq_refl) as (tail & Hs & Hno).
    exists tail. cbn [substring String.append find].
    apply Ascii.eqb_neq in Hne. rewrite Hne, Hno.
    split; [now f_equal | reflexivity].
Qed.

Lemma occurrences_In (pfx : string) (this : EmbedFSImpl)
      (o : EmbeddedDirImpl.Entry) :
  In o (Spec.occurrences pfx this) ->
  exists e, In e this /\ Spec.occurrence pfx e = Some o.
Proof.
  induction this as [|e rest IH]; cbn; [contradiction|].
  destruct (Spec.occurrence pfx e) as [o'|] eqn:Ho.
  - intros [<-|H].
    + exists e. split; [now left | exact Ho].
    + destruct (IH H) as (e' & Hin & He'). exists e'. auto.
  - intros H. destruct (IH H) as (e' & Hin & He'). exists e'. auto.
Qed.

Lemma back_is_app (pfx seg : string) (c : ascii) :
  seg <> EmptyString -> back_is (pfx ++ seg) c = back_is seg c.
Proof.
  intros Hseg. induction pfx as [|a pfx IH]; [reflexivity|].
  cbn [String.append]. rewrite <- IH.
  destruct (pfx ++ seg)%string eqn:E; [|reflexivity].
  destruct pfx; [cbn in E; contradiction | discriminate E].
Qed.

Lemma back_is_find (s : string) (c : ascii) :
  back_is s c = true -> find s c <> None.
Proof.
  induction s as [|a s IH]; [discriminate|].
  cbn [find]. destruct (Ascii.eqb a c) eqn:E; [discriminate|].
  destruct s as [|b s'].
  - cbn. now rewrite E.
  - intros H. specialize (IH H).
    destruct (find (String b s') c); [discriminate | contradiction].
Qed.

Lemma no_slash_ends (pfx seg : string) :
  find seg slash = None -> seg <> EmptyString ->
  ends_with_slash (pfx ++ seg) = false.
Proof.
  intros Hno Hseg. unfold ends_with_slash.
  rewrite back_is_app by exact Hseg.
  destruct (back_is seg slash) eqn:E; [|apply andb_false_r].
  apply back_is_find in E. contradiction.
Qed.

Lemma exists_prefix_of_entry (this : EmbedFSImpl) (pfx r n : string)
      (e : Entry) :
  In e this -> e_name e = Some n ->
  normalize n = (pfx ++ r)%string -> r <> EmptyString ->
  Full.exists_prefix this pfx = true.
Proof.
  intros Hin En Hn Hr.
  induction this as [|e0 rest IH]; [contradiction|].
  cbn [Full.exists_prefix].
  destruct Hin as [->|Hin].
  - rewrite En, Hn. unfold compare_eq, size.
    rewrite length_append, substring_prefix_app, String.eqb_refl.
    replace (String.length pfx <? String.length pfx + String.length r)%nat
      with true
      by (symmetry; apply Nat.ltb_lt; destruct r; [contradiction | cbn; lia]).
    now rewrite orb_true_r.
  - destruct (e_name e0); [|now apply IH].
    destruct (_ || _); [reflexivity | now apply IH].
Qed.

Lemma exists_of_entry_below (this : EmbedFSImpl) (s r n path : string)
      (e : Entry) :
  In e this -> e_name e = Some n ->
  normalize path = s -> s <> EmptyString ->
  normalize n = ((s ++ "/") ++ r)%string -> r <> EmptyString ->
  Full.exists_ this (Some path) = true.
Proof.
  intros Hin En Hp Hs Hn Hr. unfold Full.exists_. rewrite Hp.
  destruct s as [|a s]; [contradiction|]. cbn [empty].
  destruct (Full.find_exact this (String a s)); [reflexivity|].
  now apply (exists_prefix_of_entry this _ r n e).
Qed.

Lemma occurrence_inv (pfx : string) (e : Entry)
      (o : EmbeddedDirImpl.Entry) :
  Spec.occurrence pfx e = Some o ->
  exists n r,
    e_name e = Some n /\ normalize n = (pfx ++ r)%string /\
    r <> EmptyString /\
    EmbeddedDirImpl.path o = ("/" ++ pfx ++ fst (Full.child_of r))%string /\
    EmbeddedDirImpl.isDir o = snd (Full.child_of r).
Proof.
  unfold Spec.occurrence.
  destruct (e_name e) as [n|]; [|discriminate].
  destruct (Spec.strip_prefix pfx (normalize n)) as [r|] eqn:Hsp;
    [|discriminate].
  apply strip_prefix_Some in Hsp.
  destruct r as [|b r'] eqn:Er; [discriminate|]. rewrite <- Er in *.
  intros H. inversion H. exists n, r.
  rewrite child_of_segments. cbn [fst snd EmbeddedDirImpl.path
                                   EmbeddedDirImpl.isDir].
  repeat split; try assumption. rewrite Er. discriminate.
Qed.

Lemma child_of_cases (r : string) :
  (find r slash = None /\ Full.child_of r = (r, false)) \/
  (exists seg tail,
     r = (seg ++ String slash tail)%string /\
     find seg slash = None /\ Full.child_of r = (seg, true)).
Proof.
  unfold Full.child_of, substr.
  destruct (find r slash) as [k|] eqn:Hfind; [right | left; auto].
  destruct (find_split _ _ _ Hfind) as (tail & Hr & Hno).
  exists (substring 0 k r), tail. auto.
Qed.

Lemma normalize_child_path (pfx seg : string) :
  find seg slash = None -> seg <> EmptyString ->
  normalize ("/" ++ pfx ++ seg) = (pfx ++ seg)%string.
Proof.
  intros Hno Hseg. unfold normalize.
  change (strip_leading ("/" ++ pfx ++ seg)) with (pfx ++ seg)%string.
  apply strip_trailing_fixed. now apply no_slash_ends.
Qed.

Lemma listed_child_resolves (this : EmbedFSImpl) (path : string)
      (d : EmbeddedDirImpl.t) :
  Full.open this (Some path) = Some (DirH d) ->
  forall c, In c (EmbeddedDirImpl._entries d) ->
    (exists name,
       find name slash = None /\
       EmbeddedDirImpl.path c
       = ("/" ++ Full.prefix_of (normalize path) ++ name)%string) /\
    Full.open this (Some (EmbeddedDirImpl.path c)) <> None /\
    (EmbeddedDirImpl.isDir c = false ->
     exists f,
       Full.open this (Some (EmbeddedDirImpl.path c)) = Some (FileH f)).
Proof.
  intros Hopen c Hc.
  assert (Hentries : EmbeddedDirImpl._entries d
                     = Spec.children (normalize path) this).
  { revert Hopen. unfold Full.open.
    destruct (Full.find_exact this (normalize path)); [discriminate|].
    rewrite scan_children. destruct (negb _ || _); [|discriminate].
    intros H. inversion H. reflexivity. }
  rewrite Hentries in Hc. unfold Spec.children in Hc.
  remember (Full.prefix_of (normalize path)) as pfx eqn:Hpfx.
  remember (Spec.occurrences pfx this) as occ eqn:Hocc.
  (* the occurrence behind the child *)
  assert (Hname : In (EmbeddedDirImpl.path c) (names_of occ)).
  { apply dedup_names_In. unfold names_of. now apply in_map. }
  unfold names_of in Hname. apply in_map_iff in Hname.
  destruct Hname as (o & Hpo & Ho).
  assert (Hflag : EmbeddedDirImpl.isDir c = false ->
                  EmbeddedDirImpl.isDir o = false).
  { intros Hf. destruct (EmbeddedDirImpl.isDir o) eqn:Eo; [|reflexivity].
    assert (Ht : EmbeddedDirImpl.isDir c = true)
      by (apply (dedup_isDir occ c Hc); exists o; auto).
    congruence. }
  rewrite Hocc in Ho.
  destruct (occurrences_In _ _ _ Ho) as (e & Hin & He).
  destruct (occurrence_inv _ _ _ He) as (n & r & En & Hn & Hr & Hpath & Hdir).
  pose proof (normalize_exit n) as Hexit.
  rewrite <- Hpo, Hpath. rewrite Hdir in Hflag.
  destruct (child_of_cases r)
    as [[Hfind Hchild] | (seg & tail & Hsplit & Hno & Hchild)];
    rewrite Hchild in *; cbn [fst snd] in *.
  - (* a leaf: the entry itself is the child *)
    split; [exists r; split; [exact Hfind | reflexivity]|].
    assert (Hfile : exists f,
               Full.open this (Some ("/" ++ pfx ++ r)%string)
               = Some (FileH f)).
    { unfold Full.open. rewrite (normalize_child_path pfx r Hfind Hr).
      rewrite <- Hn.
      destruct (Full.find_exact this (normalize n)) as [e'|] eqn:Hf.
      - eauto.
      - apply find_exact_none in Hf. exfalso.
        exact (Hf e n Hin En eq_refl). }
    split; [|intros _; exact Hfile].
    destruct Hfile as [f ->]. discriminate.
  - (* further segments follow *)
    split; [exists seg; split; [exact Hno | reflexivity]|].
    split; [|intros Hf; specialize (Hflag Hf); discriminate].
    destruct (string_dec seg EmptyString) as [Hseg|Hseg].
    + (* an empty segment: the child path is the directory itself *)
      rewrite Hseg, append_empty_r.
      destruct (normalize path) as [|a q'] eqn:Eq.
      * rewrite Hpfx. apply open_root_some. reflexivity.
      * assert (Hsame : normalize ("/" ++ pfx) = normalize path).
        { rewrite Hpfx. unfold Full.prefix_of. cbn [empty].
          change ("/" ++ (String a q' ++ "/"))%string
            with (("/" ++ String a q') ++ "/")%string.
          rewrite normalize_app_slash.
          change ("/" ++ String a q')%string
            with (display_of (String a q')).
          rewrite <- Eq. apply normalize_display. }
        assert (Hre : Full.open this (Some ("/" ++ pfx)%string)
                      = Full.open this (Some path))
          by (unfold Full.open; now rewrite Hsame).
        rewrite Hre, Hopen. discriminate.
    + assert (Htail : tail <> EmptyString).
      { intros ->. rewrite Hn, Hsplit in Hexit.
        rewrite <- append_assoc_string in Hexit.
        change (String slash "") with "/"%string in Hexit.
        now rewrite ends_with_slash_app in Hexit. }
      apply exists_open_agree.
      apply (exists_of_entry_below this (pfx ++ seg) tail n _ e Hin En
               (normalize_child_path pfx seg Hno Hseg)).
      * destruct pfx; [exact Hseg | discriminate].
      * rewrite Hn, Hsplit.
        change (String slash tail) with ("/" ++ tail)%string.
        now rewrite !append_assoc_string.
      * exact Htail.
Qed.

(** X6. The children a directory handle lists are immediate and never
    dangle: each child path is the directory's prefix followed by one
    slash-free segment, opening it returns a handle, and a child listed
    as a non-directory opens as a file. *)
Theorem listed_children_resolve (this : EmbedFSImpl) (path : string)
        (d : EmbeddedDirImpl.t) :
  Full.open this (Some path) = Some (DirH d) ->
  forall c, In c (EmbeddedDirImpl._entries d) ->
    (exists name,
       find name slash = None /\
       EmbeddedDirImpl.path c
       = ("/" ++ Full.prefix_of (normalize path) ++ name)%string) /\
    Full.open this (Some (EmbeddedDirImpl.path c)) <> None /\
    (EmbeddedDirImpl.isDir c = false ->
     exists f,
       Full.open this (Some (EmbeddedDirImpl.path c)) = Some (FileH f)).
Proof.
  intros Hopen c Hc.
  destruct (listed_child_resolves this path d Hopen c Hc)
    as (Hshape & Hres & Hfile).
  split; [exact Hshape|]. split; [exact Hres | exact Hfile].
Qed.

(** X6 (witness). *)
Lemma listed_children_resolve_witness :
  let this := [mkEntry (Some "/a/x.txt") (Some [Byte.x01]) 1;
               mkEntry (Some "/a/sub/y.txt") (Some []) 0] in
  let kids := [EmbeddedDirImpl.mkEntry "/a/x.txt" false;
               EmbeddedDirImpl.mkEntry "/a/sub" true] in
  let d := EmbeddedDirImpl.mk (Some "/a") (Some "a") (Some this) kids 0 in
  Full.open this (Some "a/") = Some (DirH d) /\
  Full.open this (Some "/a/sub") <> None /\
  exists f, Full.open this (Some "/a/x.txt") = Some (FileH f).
Proof.
  intros this kids d.
  assert (H : Full.open this (Some "a/") = Some (DirH d)) by reflexivity.
  split; [exact H|]. split.
  - destruct (listed_children_resolve this "a/" d H
                (EmbeddedDirImpl.mkEntry "/a/sub" true)) as (_ & Hres & _).
    + cbn. tauto.
    + exact Hres.
  - destruct (listed_children_resolve this "a/" d H
                (EmbeddedDirImpl.mkEntry "/a/x.txt" false)) as (_ & _ & Hf).
    + cbn. tauto.
    + apply Hf. reflexivity.
Defined.

(** ** Walking a directory *)

Lemma set_index_same (d : EmbeddedDirImpl.t) :
  EmbeddedDirImpl.set_index d (EmbeddedDirImpl._index d) = d.
Proof. now destruct d. Qed.

Lemma skipn_nth_error (A : Type) (l : list A) (i : nat) (x : A) :
  nth_error l i = Some x -> skipn i l = x :: skipn (S i) l.
Proof.
  revert i. induction l as [|a l IH]; intros [|i] H; cbn in *;
    try discriminate.
  - now inversion H.
  - now apply IH.
Qed.

Lemma nth_error_in_range (A : Type) (l : list A) (i : nat) :
  (i < List.length l)%nat -> exists x, nth_error l i = Some x.
Proof.
  intros H. destruct (nth_error l i) eqn:E; [eauto|].
  apply nth_error_None in E. lia.
Qed.

Lemma open_dir_fields (this : EmbedFSImpl) (path : string)
      (d : EmbeddedDirImpl.t) :
  Full.open this (Some path) = Some (DirH d) ->
  EmbeddedDirImpl._owner d = Some this /\ EmbeddedDirImpl._index d = 0.
Proof.
  unfold Full.open.
  destruct (Full.find_exact this (normalize path)); [discriminate|].
  destruct (negb _ || _); [|discriminate].
  intros H. inversion H. split; reflexivity.
Qed.

(** X7. [openNextFile] on a directory handle obtained from [open]: while
    the cursor is inside the child list it opens the child under the
    cursor through the owner, always gets a handle, and advances the
    cursor by one; at the end it returns the empty pointer and leaves
    the cursor where it is. *)
Theorem openNextFile_walks {T : Target} (this : EmbedFSImpl)
        (path : string) (d : EmbeddedDirImpl.t) (i : Z) :
  Full.open this (Some path) = Some (DirH d) ->
  let n := Z.of_nat (List.length (EmbeddedDirImpl._entries d)) in
  n < SIZE_MOD ->
  (0 <= i < n ->
   exists c h,
     nth_error (EmbeddedDirImpl._entries d) (Z.to_nat i) = Some c /\
     Full.open this (Some (EmbeddedDirImpl.path c)) = Some h /\
     Full.openNextFile (EmbeddedDirImpl.set_index d i)
     = (Some h, EmbeddedDirImpl.set_index d (i + 1)))
  /\
  (n <= i ->
   Full.openNextFile (EmbeddedDirImpl.set_index d i)
   = (None, EmbeddedDirImpl.set_index d i)).
Proof.
  intros Hopen n Hn.
  destruct (open_dir_fields _ _ _ Hopen) as [Howner _].
  unfold Full.openNextFile.
  cbn [EmbeddedDirImpl.set_index EmbeddedDirImpl._entries
       EmbeddedDirImpl._index EmbeddedDirImpl._owner]. fold n.
  split; intros Hi.
  - destruct (Z.leb_spec n i); [lia|]. rewrite Howner.
    destruct (nth_error_in_range _ (EmbeddedDirImpl._entries d) (Z.to_nat i))
      as [c Hc]; [lia|].
    assert (Hin : In c (EmbeddedDirImpl._entries d))
      by (eapply nth_error_In; exact Hc).
    destruct (listed_child_resolves this path d Hopen c Hin)
      as (_ & Hres & _).
    destruct (Full.open this (Some (EmbeddedDirImpl.path c))) as [h|] eqn:Hh;
      [|contradiction].
    exists c, h. split; [exact Hc|]. split; [exact Hh|].
    rewrite Hc. cbn [option_map]. rewrite Hh.
    rewrite wrap_small by lia. reflexivity.
  - destruct (Z.leb_spec n i); [reflexivity | lia].
Qed.

(** X7 (witness). *)
Lemma openNextFile_walks_witness :
  let this := [mkEntry (Some "/dir/inner.txt") (Some [Byte.x79]) 1] in
  let d := EmbeddedDirImpl.mk (Some "/dir") (Some "dir") (Some this)
             [EmbeddedDirImpl.mkEntry "/dir/inner.txt" false] 0 in
  Full.open this (Some "/dir") = Some (DirH d) /\
  Full.openNextFile (T := ILP32) (EmbeddedDirImpl.set_index d 1)
  = (None, EmbeddedDirImpl.set_index d 1).
Proof.
  intros this d.
  assert (H : Full.open this (Some "/dir") = Some (DirH d)) by reflexivity.
  split; [exact H|].
  apply (openNextFile_walks (T := ILP32) this "/dir" d 1 H).
  - reflexivity.
  - cbn. lia.
Defined.

Lemma list_names_spec {T : Target} (fuel : nat) (d : EmbeddedDirImpl.t) :
  let n := Z.of_nat (List.length (EmbeddedDirImpl._entries d)) in
  n < SIZE_MOD ->
  0 <= EmbeddedDirImpl._index d <= n ->
  n - EmbeddedDirImpl._index d <= Z.of_nat fuel ->
  list_names fuel d
  = (skipn (Z.to_nat (EmbeddedDirImpl._index d)) (EmbeddedDirImpl._entries d),
     EmbeddedDirImpl.set_index d n).
Proof.
  revert d. induction fuel as [|k IH]; intros d n Hn Hi Hfuel.
  - assert (EmbeddedDirImpl._index d = n) as Hend by lia.
    cbn [list_names]. rewrite <- Hend. rewrite set_index_same.
    rewrite skipn_all2 by (unfold n in Hend; lia). reflexivity.
  - cbn [list_names]. unfold EmbeddedDirImpl.getNextFileName. fold n.
    destruct (Z.leb_spec n (EmbeddedDirImpl._index d)).
    + assert (EmbeddedDirImpl._index d = n) as Hend by lia.
      rewrite <- Hend. rewrite set_index_same.
      rewrite skipn_all2 by (unfold n in Hend; lia). reflexivity.
    + destruct (nth_error_in_range _ (EmbeddedDirImpl._entries d)
                  (Z.to_nat (EmbeddedDirImpl._index d))) as [e He]; [lia|].
      rewrite He. rewrite wrap_small by lia.
      rewrite IH; cbn [EmbeddedDirImpl.set_index EmbeddedDirImpl._entries
                       EmbeddedDirImpl._index]; fold n; try lia.
      rewrite (skipn_nth_error _ _ _ _ He).
      replace (Z.to_nat (EmbeddedDirImpl._index d + 1))
        with (S (Z.to_nat (EmbeddedDirImpl._index d))) by lia.
      reflexivity.
Qed.

(** X8. Listing a directory handle with [getNextFileName]: from a cursor
    inside the child list the loop delivers the children from the cursor
    on, in order, and stops at the end of the list; a further call
    delivers nothing and changes nothing; after [rewindDirectory] the
    loop delivers the whole list again. *)
Theorem listing_delivers_children {T : Target} (d : EmbeddedDirImpl.t)
        (fuel : nat) :
  let kids := EmbeddedDirImpl._entries d in
  let n := Z.of_nat (List.length kids) in
  n < SIZE_MOD ->
  0 <= EmbeddedDirImpl._index d <= n ->
  n <= Z.of_nat fuel ->
  let r := list_names fuel d in
  fst r = skipn (Z.to_nat (EmbeddedDirImpl._index d)) kids /\
  snd r = EmbeddedDirImpl.set_index d n /\
  EmbeddedDirImpl.getNextFileName (snd r) = (None, snd r) /\
  list_names fuel (EmbeddedDirImpl.rewindDirectory (snd r))
  = (kids, snd r).
Proof.
  intros kids n Hn Hi Hfuel r. unfold r.
  rewrite list_names_spec by (fold kids n; lia).
  fold kids n. cbn [fst snd]. split; [reflexivity|]. split; [reflexivity|].
  split.
  - unfold EmbeddedDirImpl.getNextFileName.
    cbn [EmbeddedDirImpl.set_index EmbeddedDirImpl._entries
         EmbeddedDirImpl._index]. fold kids n.
    destruct (Z.leb_spec n n); [reflexivity | lia].
  - rewrite list_names_spec;
      cbn [EmbeddedDirImpl.rewindDirectory EmbeddedDirImpl.set_index
           EmbeddedDirImpl._entries EmbeddedDirImpl._index];
      fold kids n; try lia.
    reflexivity.
Qed.

(** X8 (witness). *)
Lemma listing_delivers_children_witness :
  let kids := [EmbeddedDirImpl.mkEntry "/a/x.txt" false;
               EmbeddedDirImpl.mkEntry "/a/sub" true] in
  let d := EmbeddedDirImpl.mk (Some "/a") (Some "a") None kids 1 in
  fst (list_names (T := ILP32) 5 d)
  = [EmbeddedDirImpl.mkEntry "/a/sub" true] /\
  snd (list_names (T := ILP32) 5 d) = EmbeddedDirImpl.set_index d 2.
Proof.
  intros kids d.
  destruct (listing_delivers_children (T := ILP32) d 5) as (H1 & H2 & _).
  - reflexivity.
  - cbn. lia.
  - cbn. lia.
  - split; [exact H1 | exact H2].
Defined.

(** X9. [seekDir]: a negative position is refused and nothing changes;
    any other position is accepted and clamped to the number of
    children, so the cursor never leaves the child list, and the listing
    loop then delivers the children from the clamped position on. *)
Theorem seekDir_clamps {T : Target} (d : EmbeddedDirImpl.t)
        (position : Z) :
  let kids := EmbeddedDirImpl._entries d in
  let n := Z.of_nat (List.length kids) in
  n < SIZE_MOD ->
  (position < 0 -> EmbeddedDirImpl.seekDir d position = (false, d))
  /\
  (0 <= position < SIZE_MOD ->
   EmbeddedDirImpl.seekDir d position
   = (true, EmbeddedDirImpl.set_index d (Z.min position n)) /\
   fst (list_names (List.length kids)
          (snd (EmbeddedDirImpl.seekDir d position)))
   = skipn (Z.to_nat (Z.min position n)) kids).
Proof.
  intros kids n Hn. unfold EmbeddedDirImpl.seekDir. fold kids n.
  split; intros Hp.
  - destruct (Z.ltb_spec position 0); [reflexivity | lia].
  - destruct (Z.ltb_spec position 0); [lia|].
    rewrite wrap_small by lia.
    assert (Hmin : (if n <? position then n else position)
                   = Z.min position n)
      by (destruct (Z.ltb_spec n position); lia).
    rewrite Hmin. split; [reflexivity|]. cbn [snd].
    rewrite list_names_spec;
      cbn [EmbeddedDirImpl.set_index EmbeddedDirImpl._entries
           EmbeddedDirImpl._index]; fold kids n; try lia.
    reflexivity.
Qed.

(** X9 (witness). *)
Lemma seekDir_clamps_witness :
  let kids := [EmbeddedDirImpl.mkEntry "/a/x.txt" false;
               EmbeddedDirImpl.mkEntry "/a/sub" true] in
  let d := EmbeddedDirImpl.mk (Some "/a") (Some "a") None kids 0 in
  EmbeddedDirImpl.seekDir (T := ILP32) d (-1) = (false, d) /\
  EmbeddedDirImpl.seekDir (T := ILP32) d 7
  = (true, EmbeddedDirImpl.set_index d 2).
Proof.
  intros kids d.
  destruct (seekDir_clamps (T := ILP32) d (-1)) as [Hneg _]; [reflexivity|].
  destruct (seekDir_clamps (T := ILP32) d 7) as [_ Hpos]; [reflexivity|].
  split.
  - apply Hneg. lia.
  - destruct Hpos as [Hseek _]; [rewrite SIZE_MOD_ILP32; lia|]. exact Hseek.
Defined.

(** ** The file cursor stays inside the file *)

Lemma SIZE_MOD_pos {T : Target} : 0 < SIZE_MOD.
Proof. pose proof UINT32_MOD_le. rewrite UINT32_MOD_value in *. lia. Qed.

Lemma wrap_range {T : Target} (z : Z) : 0 <= wrap z < SIZE_MOD.
Proof. unfold wrap. apply Z.mod_pos_bound. apply SIZE_MOD_pos. Qed.

Lemma apply_op_keeps {T : Target} (f : EmbeddedFileImpl.t) (op : FileOp) :
  0 <= EmbeddedFileImpl._pos f <= EmbeddedFileImpl._size f ->
  EmbeddedFileImpl._size f < SIZE_MOD ->
  op_typed op ->
  let f' := apply_op f op in
  0 <= EmbeddedFileImpl._pos f' <= EmbeddedFileImpl._size f' /\
  EmbeddedFileImpl._size f' = EmbeddedFileImpl._size f /\
  EmbeddedFileImpl._data f' = EmbeddedFileImpl._data f /\
  EmbeddedFileImpl._path f' = EmbeddedFileImpl._path f /\
  EmbeddedFileImpl._name f' = EmbeddedFileImpl._name f.
Proof.
  intros HP HN Hop. destruct op as [buf size|pos mode|]; cbn [apply_op].
  - cbn [op_typed] in Hop. unfold in_size_t in Hop.
    unfold EmbeddedFileImpl.read.
    destruct (EmbeddedFileImpl._data f) eqn:Ed;
      [|cbn; repeat split; try lia; congruence].
    destruct (Z.leb_spec (EmbeddedFileImpl._size f) (EmbeddedFileImpl._pos f));
      [cbn; repeat split; try lia; congruence|].
    cbn [snd EmbeddedFileImpl.set_pos EmbeddedFileImpl._pos
         EmbeddedFileImpl._size EmbeddedFileImpl._data
         EmbeddedFileImpl._path EmbeddedFileImpl._name].
    rewrite (wrap_small (EmbeddedFileImpl._size f - EmbeddedFileImpl._pos f))
      by lia.
    destruct (Z.ltb_spec size
                (EmbeddedFileImpl._size f - EmbeddedFileImpl._pos f));
      rewrite wrap_small by lia; repeat split; try lia; congruence.
  - unfold EmbeddedFileImpl.seek.
    set (newpos := match mode with
                   | SeekSet => wrap pos
                   | SeekCur => wrap (EmbeddedFileImpl._pos f + pos)
                   | SeekEnd => wrap (EmbeddedFileImpl._size f + pos)
                   end).
    assert (Hnew : 0 <= newpos)
      by (unfold newpos; destruct mode; apply wrap_range).
    destruct (Z.ltb_spec (EmbeddedFileImpl._size f) newpos);
      cbn [snd EmbeddedFileImpl.set_pos EmbeddedFileImpl._pos
           EmbeddedFileImpl._size EmbeddedFileImpl._data
           EmbeddedFileImpl._path EmbeddedFileImpl._name];
      repeat split; try reflexivity; lia.
  - unfold EmbeddedFileImpl.close. repeat split; try reflexivity; lia.
Qed.

(** X10. Whatever sequence of [read], [seek] and [close] calls is made
    on a file cursor, its position stays within [0, size], and its
    size, data reference, path and name never change. *)
Theorem cursor_stays_in_file {T : Target} (ops : list FileOp)
        (f : EmbeddedFileImpl.t) :
  0 <= EmbeddedFileImpl._pos f <= EmbeddedFileImpl._size f ->
  EmbeddedFileImpl._size f < SIZE_MOD ->
  Forall op_typed ops ->
  let f' := fold_left apply_op ops f in
  0 <= EmbeddedFileImpl._pos f' <= EmbeddedFileImpl._size f' /\
  EmbeddedFileImpl._size f' = EmbeddedFileImpl._size f /\
  EmbeddedFileImpl._data f' = EmbeddedFileImpl._data f /\
  EmbeddedFileImpl._path f' = EmbeddedFileImpl._path f /\
  EmbeddedFileImpl._name f' = EmbeddedFileImpl._name f.
Proof.
  revert f. induction ops as [|op ops IH]; intros f HP HN Hops.
  - cbn. repeat split; lia.
  - inversion Hops as [|? ? Hop Hrest]; subst.
    destruct (apply_op_keeps f op HP HN Hop) as (HP' & Hs & Hd & Hp & Hn).
    cbn [fold_left].
    destruct (IH (apply_op f op)) as (HP'' & Hs' & Hd' & Hp' & Hn');
      [exact HP' | rewrite Hs; exact HN | exact Hrest |].
    repeat split; try congruence; lia.
Qed.

(** X10 (witness). *)
Lemma cursor_stays_in_file_witness :
  let f := EmbeddedFileImpl.make (Some "/hello.txt")
             (Some [Byte.x68; Byte.x69]) 2 in
  let ops := [OpSeek 1 SeekSet; OpRead [Byte.x00; Byte.x00] 2;
              OpSeek 4294967295 SeekEnd; OpSeek 9 SeekCur; OpClose] in
  let f' := fold_left (apply_op (T := ILP32)) ops f in
  0 <= EmbeddedFileImpl._pos f' <= EmbeddedFileImpl._size f' /\
  EmbeddedFileImpl._data f' = Some [Byte.x68; Byte.x69].
Proof.
  intros f ops f'.
  destruct (cursor_stays_in_file (T := ILP32) ops f) as (HP & _ & Hd & _).
  - cbn. lia.
  - reflexivity.
  - unfold ops.
    repeat constructor; cbn; unfold in_uint32, in_size_t;
      rewrite ?UINT32_MOD_value, ?SIZE_MOD_ILP32; lia.
  - split; [exact HP | exact Hd].
Defined.

(** ** [totalBytes] *)

Lemma fold_wrap_sum {T : Target} (l : list Z) (a : Z) :
  fold_left (fun sum s => wrap (sum + s)) l (wrap a)
  = wrap (a + fold_right Z.add 0 l).
Proof.
  revert a. induction l as [|x l IH]; intros a; cbn [fold_left fold_right].
  - now rewrite Z.add_0_r.
  - assert (wrap (wrap a + x) = wrap (a + x)) as ->
      by (unfold wrap; apply Zplus_mod_idemp_l).
    rewrite IH. f_equal. lia.
Qed.

(** X11. [totalBytes] is the sum of the sizes of the mounted entries,
    reduced modulo [2^SIZE_BITS] because the running sum is a [size_t];
    it is the exact sum whenever that fits. [usedBytes] is the same
    number, and both are 0 while nothing is mounted. *)
Theorem totalBytes_is_sum {T : Target} (fs : EmbedFSFS.t) :
  (forall sizes,
     EmbedFSFS.fileSizes_ fs = Some sizes ->
     let used := firstn (Z.to_nat (EmbedFSFS.fileCount_ fs)) sizes in
     let sum := fold_right Z.add 0 used in
     EmbedFSFS.totalBytes fs = wrap sum /\
     (0 <= sum < SIZE_MOD -> EmbedFSFS.totalBytes fs = sum))
  /\ EmbedFSFS.usedBytes fs = EmbedFSFS.totalBytes fs
  /\ EmbedFSFS.totalBytes (EmbedFSFS.end_ fs) = 0
  /\ EmbedFSFS.totalBytes EmbedFSFS.init = 0.
Proof.
  split; [|repeat split].
  intros sizes Hs used sum.
  assert (Htotal : EmbedFSFS.totalBytes fs = wrap sum).
  { unfold EmbedFSFS.totalBytes. rewrite Hs. fold used.
    replace 0 with (wrap 0) at 1
      by (apply wrap_small; pose proof SIZE_MOD_pos; lia).
    now rewrite fold_wrap_sum. }
  split; [exact Htotal|].
  intros Hfit. rewrite Htotal. now apply wrap_small.
Qed.

(** X11 (witness). *)
Lemma totalBytes_is_sum_witness :
  let fs := snd (EmbedFSFS.begin EmbedFSFS.init
                   (Some [Some "/a"; Some "/b"; Some "/c"])
                   (Some [Some []; Some []; Some []])
                   (Some [2; 3; 100]) 2) in
  EmbedFSFS.fileSizes_ fs = Some [2; 3; 100] /\
  EmbedFSFS.totalBytes (T := ILP32) fs = 5.
Proof.
  intros fs.
  assert (Hs : EmbedFSFS.fileSizes_ fs = Some [2; 3; 100]) by reflexivity.
  split; [exact Hs|].
  destruct (totalBytes_is_sum (T := ILP32) fs) as [Hsum _].
  destruct (Hsum _ Hs) as [_ Hfit].
  apply Hfit. vm_compute. split; [discriminate | reflexivity].
Defined.

(** ** The compat reader, byte by byte *)

Lemma to_int_small (z : Z) : 0 <= z < 2 ^ 31 -> to_int z = z.
Proof.
  intros H. unfold to_int.
  change (2 ^ 31) with 2147483648 in *. change (2 ^ 32) with 4294967296.
  rewrite Z.mod_small by lia. lia.
Qed.

Lemma skipn_nth (A : Type) (l : list A) (i : nat) (x : A) :
  (i < List.length l)%nat -> skipn i l = nth i l x :: skipn (S i) l.
Proof.
  revert i. induction l as [|a l IH]; intros [|i] H; cbn in *; try lia.
  - reflexivity.
  - apply IH. lia.
Qed.

Lemma drain_spec {T : Target} (d : list Byte.byte) (ds : Z) (fuel : nat)
      (ps : Z) :
  Z.of_nat (List.length d) = ds ->
  ds < 2 ^ 31 ->
  0 <= ps <= ds ->
  ds - ps <= Z.of_nat fuel ->
  EmbedFSFile.drain fuel (EmbedFSFile.mk (Some d) ds ps)
  = (map (fun b => Z.of_N (Byte.to_N b)) (skipn (Z.to_nat ps) d),
     EmbedFSFile.mk (Some d) ds ds).
Proof.
  intros Hlen Hds. pose proof UINT32_MOD_le as Hle.
  rewrite UINT32_MOD_value in Hle.
  change (2 ^ 31) with 2147483648 in Hds.
  revert ps. induction fuel as [|k IH]; intros ps Hps Hfuel.
  - assert (ps = ds) as -> by lia. cbn [EmbedFSFile.drain].
    rewrite skipn_all2 by lia. reflexivity.
  - cbn [EmbedFSFile.drain]. unfold EmbedFSFile.available.
    cbn [EmbedFSFile.dataPtr_ EmbedFSFile.dataSize_ EmbedFSFile.pos_].
    rewrite wrap_small by lia.
    rewrite to_int_small by (change (2 ^ 31) with 2147483648; lia).
    destruct (Z.eqb_spec (ds - ps) 0) as [H0|H0].
    + assert (ps = ds) as -> by lia.
      rewrite skipn_all2 by lia. reflexivity.
    + unfold EmbedFSFile.read_byte.
      cbn [EmbedFSFile.dataPtr_ EmbedFSFile.dataSize_ EmbedFSFile.pos_].
      destruct (Z.leb_spec ds ps); [lia|].
      rewrite wrap_small by lia. rewrite IH by lia.
      rewrite (skipn_nth _ d (Z.to_nat ps) Byte.x00) by lia.
      replace (Z.to_nat (ps + 1)) with (S (Z.to_nat ps)) by lia.
      reflexivity.
Qed.

(** X12. The byte-wise read loop of the compat reader,
    [while (f.available()) f.read()]: on a handle bound to a range of
    less than [2^31] bytes, [available] is the number of bytes left, the
    loop delivers exactly the bytes from the position to the end, in
    order, and leaves the handle at the end, where [available] is 0 and
    [read] returns [-1]. *)
Theorem drain_delivers_rest {T : Target} (f : EmbedFSFile.t)
        (d : list Byte.byte) (fuel : nat) :
  EmbedFSFile.dataPtr_ f = Some d ->
  Z.of_nat (List.length d) = EmbedFSFile.dataSize_ f ->
  EmbedFSFile.dataSize_ f < 2 ^ 31 ->
  0 <= EmbedFSFile.pos_ f <= EmbedFSFile.dataSize_ f ->
  EmbedFSFile.dataSize_ f - EmbedFSFile.pos_ f <= Z.of_nat fuel ->
  let r := EmbedFSFile.drain fuel f in
  EmbedFSFile.available f
  = EmbedFSFile.dataSize_ f - EmbedFSFile.pos_ f /\
  fst r = map (fun b => Z.of_N (Byte.to_N b))
              (skipn (Z.to_nat (EmbedFSFile.pos_ f)) d) /\
  EmbedFSFile.pos_ (snd r) = EmbedFSFile.dataSize_ f /\
  EmbedFSFile.available (snd r) = 0 /\
  EmbedFSFile.read_byte (snd r) = (-1, snd r).
Proof.
  destruct f as [dp ds ps]. cbn [EmbedFSFile.dataPtr_ EmbedFSFile.dataSize_
                                 EmbedFSFile.pos_].
  intros -> Hlen Hds Hps Hfuel.
  rewrite (drain_spec d ds fuel ps Hlen Hds Hps Hfuel). cbn [fst snd].
  pose proof UINT32_MOD_le as Hle. rewrite UINT32_MOD_value in Hle.
  assert (Hds' : ds < 2147483648) by exact Hds.
  unfold EmbedFSFile.available, EmbedFSFile.read_byte.
  cbn [EmbedFSFile.dataPtr_ EmbedFSFile.dataSize_ EmbedFSFile.pos_].
  rewrite Z.sub_diag.
  rewrite (wrap_small (ds - ps)) by lia.
  rewrite (wrap_small 0) by lia.
  rewrite !to_int_small by (change (2 ^ 31) with 2147483648; lia).
  destruct (Z.leb_spec ds ds); [|lia].
  repeat split.
Qed.

(** X12 (witness). *)
Lemma drain_delivers_rest_witness :
  let f := EmbedFSFile.mk (Some [Byte.x68; Byte.x69; Byte.x21]) 3 1 in
  fst (EmbedFSFile.drain (T := ILP32) 10 f) = [105; 33] /\
  EmbedFSFile.available (T := ILP32) f = 2.
Proof.
  intros f.
  destruct (drain_delivers_rest (T := ILP32) f
              [Byte.x68; Byte.x69; Byte.x21] 10) as (Hav & Hout & _);
    try reflexivity; try (cbn; lia).
  split; [exact Hout | exact Hav].
Defined.

(** ** The minimal variant *)

Lemma minimal_lookup_some (this : EmbedFSImpl) (path : string) (e : Entry) :
  Minimal.lookup this path = Some e ->
  exists pre post,
    this = pre ++ e :: post /\ e_name e = Some path /\
    forall e', In e' pre -> e_name e' <> Some path.
Proof.
  induction this as [|e0 rest IH]; cbn; [discriminate|].
  destruct (e_name e0) as [n|] eqn:En.
  - destruct (String.eqb_spec n path) as [->|Hne].
    + intros H. inversion H; subst e0.
      exists [], rest. split; [reflexivity|]. split; [exact En|].
      intros e' [].
    + intros H. destruct (IH H) as (pre & post & -> & He & Hpre).
      exists (e0 :: pre), post. split; [reflexivity|]. split; [exact He|].
      intros e' [<-|Hin]; [congruence | now apply Hpre].
  - intros H. destruct (IH H) as (pre & post & -> & He & Hpre).
    exists (e0 :: pre), post. split; [reflexivity|]. split; [exact He|].
    intros e' [<-|Hin]; [congruence | now apply Hpre].
Qed.

Lemma minimal_exists_lookup (this : EmbedFSImpl) (path : string) :
  Minimal.exists_ this path = true <-> Minimal.lookup this path <> None.
Proof.
  induction this as [|e rest IH]; cbn.
  - split; [discriminate | intros H; now contradiction H].
  - destruct (e_name e) as [n|]; [|exact IH].
    destruct (String.eqb n path); [|exact IH].
    split; [discriminate | reflexivity].
Qed.

(** X13. In the minimal variant [exists(path)] is true exactly when
    [open(path)] returns a handle, and that handle is a file handle on
    the data and size of the first entry whose name is [path], character
    for character, with the query as its path. *)
Theorem minimal_open_first_literal (this : EmbedFSImpl) (path : string) :
  (Minimal.exists_ this path = true <-> Minimal.open this path <> None)
  /\
  (forall h,
     Minimal.open this path = Some h ->
     exists pre e post,
       this = pre ++ e :: post /\ e_name e = Some path /\
       (forall e', In e' pre -> e_name e' <> Some path) /\
       h = FileH (EmbeddedFileImpl.make (Some path) (e_data e) (e_size e))).
Proof.
  split.
  - rewrite minimal_exists_lookup. unfold Minimal.open.
    destruct (Minimal.lookup this path); split; congruence.
  - unfold Minimal.open. intros h.
    destruct (Minimal.lookup this path) as [e|] eqn:Hl; [|discriminate].
    intros H. inversion H.
    destruct (minimal_lookup_some _ _ _ Hl) as (pre & post & Hthis & He & Hpre).
    exists pre, e, post. auto.
Qed.

(** X13 (witness): the minimal variant does not normalize. *)
Lemma minimal_open_first_literal_witness :
  let this := [mkEntry (Some "a.txt") (Some [Byte.x01]) 1;
               mkEntry (Some "/a.txt") (Some [Byte.x02]) 1] in
  let h := FileH (EmbeddedFileImpl.mk (Some "/a.txt") (Some "a.txt")
                    (Some [Byte.x02]) 1 0) in
  Minimal.open this "/a.txt" = Some h /\
  exists pre e post,
    this = pre ++ e :: post /\ e_name e = Some "/a.txt"%string /\
    (forall e', In e' pre -> e_name e' <> Some "/a.txt"%string) /\
    h = FileH (EmbeddedFileImpl.make (Some "/a.txt") (e_data e) (e_size e)).
Proof.
  intros this h.
  assert (H : Minimal.open this "/a.txt" = Some h) by reflexivity.
  split; [exact H|].
  exact (proj2 (minimal_open_first_literal this "/a.txt") h H).
Defined.

(** X14. [openEmbedded] of the minimal variant agrees with [open]: on an
    object mounted by [begin] it returns the reader on the data and size
    of the handle [open] returns for the same path, and the empty reader
    when [open] returns none; after [end] it returns the empty reader
    for every path. *)
Theorem openEmbedded_agrees_with_open (fs0 : EmbedFSFS.t)
        (names : list (option string))
        (data : list (option (list Byte.byte)))
        (sizes : list Z) (count : Z) (path : string) :
  count <> 0 ->
  let fs := snd (EmbedFSFS.begin fs0 (Some names) (Some data)
                   (Some sizes) count) in
  let impl := EmbedFSImpl_make names data sizes count in
  EmbedFSFS._impl fs = Some impl /\
  (forall f,
     Minimal.open impl path = Some (FileH f) ->
     EmbedFSFS.openEmbedded fs path
     = EmbedFSFile.make (EmbeddedFileImpl._data f)
                        (EmbeddedFileImpl._size f)) /\
  (Minimal.open impl path = None ->
   EmbedFSFS.openEmbedded fs path = EmbedFSFile.empty_file) /\
  EmbedFSFS.openEmbedded (EmbedFSFS.end_ fs) path = EmbedFSFile.empty_file.
Proof.
  intros Hc fs impl. unfold fs, EmbedFSFS.begin.
  destruct (Z.eqb_spec count 0) as [|_]; [contradiction|].
  cbn [snd EmbedFSFS._impl]. split; [reflexivity|].
  unfold EmbedFSFS.openEmbedded, Minimal.open.
  cbn [EmbedFSFS.fileNames_ EmbedFSFS.fileData_ EmbedFSFS.fileSizes_
       EmbedFSFS.fileCount_ EmbedFSFS.end_]. fold impl.
  destruct (Minimal.lookup impl path) as [e|].
  - split; [|split; [discriminate | reflexivity]].
    intros f H. inversion H. reflexivity.
  - split; [discriminate|]. split; reflexivity.
Qed.

(** X14 (witness). *)
Lemma openEmbedded_agrees_with_open_witness :
  let fs := snd (EmbedFSFS.begin EmbedFSFS.init
                   (Some [Some "/hello.txt"])
                   (Some [Some [Byte.x68; Byte.x69]]) (Some [2]) 1) in
  EmbedFSFS.openEmbedded fs "/missing" = EmbedFSFile.empty_file /\
  EmbedFSFS.openEmbedded (EmbedFSFS.end_ fs) "/hello.txt"
  = EmbedFSFile.empty_file.
Proof.
  intros fs.
  destruct (openEmbedded_agrees_with_open EmbedFSFS.init
              [Some "/hello.txt"] [Some [Byte.x68; Byte.x69]] [2] 1
              "/missing") as (_ & _ & Hnone & _); [discriminate|].
  destruct (openEmbedded_agrees_with_open EmbedFSFS.init
              [Some "/hello.txt"] [Some [Byte.x68; Byte.x69]] [2] 1
              "/hello.txt") as (_ & _ & _ & Hend); [discriminate|].
  split; [apply Hnone; reflexivity | exact Hend].
Defined.

(** ** The intermediate variant *)

Lemma intermediate_find_exact_some (this : EmbedFSImpl) (p : string)
      (e : Entry) :
  Intermediate.find_exact this p = Some e ->
  In e this /\ exists n, e_name e = Some n /\ strip_leading n = p.
Proof.
  induction this as [|e0 rest IH]; cbn; [discriminate|].
  destruct (e_name e0) as [n|] eqn:En.
  - destruct (String.eqb_spec (strip_leading n) p) as [Heq|].
    + intros H. inversion H; subst e0. split; [now left | eauto].
    + intros H. destruct (IH H) as [Hin Hn]. split; [now right | exact Hn].
  - intros H. destruct (IH H) as [Hin Hn]. split; [now right | exact Hn].
Qed.

(** X15. In the intermediate variant [exists(path)] is true exactly when
    [open(path)] returns a handle, but no handle it returns is a
    directory: [isDirectory()] is always false, and a handle that
    converts to true always stands for an entry (with data) whose name
    equals the query once the leading slash is stripped. A query that
    only matches as a directory prefix gets a handle without data and of
    size 0, which converts to false. *)
Theorem intermediate_directory_marker (this : EmbedFSImpl)
        (path : option string) :
  (Intermediate.exists_ this path = true
   <-> Intermediate.open this path <> None)
  /\
  (forall h,
     Intermediate.open this path = Some h ->
     FileImpl_isDirectory h = false /\
     (FileImpl_valid h = true ->
      exists p e n,
        path = Some p /\ In e this /\ e_name e = Some n /\
        strip_leading n = strip_leading p /\ e_data e <> None) /\
     (forall p, path = Some p ->
        Intermediate.find_exact this (strip_leading p) = None ->
        h = FileH (EmbeddedFileImpl.make
                     (Some ("/" ++ strip_leading p)%string) None 0) /\
        FileImpl_valid h = false)).
Proof.
  destruct path as [p|];
    [|split; [split; [discriminate | intros H; now contradiction H]
             | discriminate]].
  unfold Intermediate.exists_, Intermediate.open.
  destruct (Intermediate.find_exact this (strip_leading p)) as [e|] eqn:Hf.
  - split; [split; [discriminate | reflexivity]|].
    intros h H. inversion H. split; [reflexivity|]. split.
    + cbn [FileImpl_valid]. unfold EmbeddedFileImpl.valid.
      cbn [EmbeddedFileImpl.make EmbeddedFileImpl._data].
      destruct (intermediate_find_exact_some _ _ _ Hf) as (Hin & n & En & Hn).
      intros Hv. exists p, e, n.
      split; [reflexivity|]. split; [exact Hin|]. split; [exact En|].
      split; [exact Hn|].
      intros Hnone. rewrite Hnone in Hv. discriminate Hv.
    + intros p' Hp' Hnone. inversion Hp'; subst p'. congruence.
  - destruct (Intermediate.has_prefix this (Full.prefix_of (strip_leading p))).
    + split; [split; [discriminate | reflexivity]|].
      intros h H. inversion H. split; [reflexivity|]. split.
      * discriminate.
      * intros p' Hp' _. inversion Hp'; subst p'. split; reflexivity.
    + split; [split; [discriminate | intros H; now contradiction H]|].
      discriminate.
Qed.

(** X15 (witness): [/dir] exists, and its handle converts to false. *)
Lemma intermediate_directory_marker_witness :
  let this := [mkEntry (Some "/dir/inner.txt") (Some [Byte.x79]) 1] in
  let h := FileH (EmbeddedFileImpl.mk (Some "/dir") (Some "dir") None 0 0) in
  Intermediate.exists_ this (Some "/dir") = true /\
  Intermediate.open this (Some "/dir") = Some h /\
  FileImpl_isDirectory h = false /\
  FileImpl_valid h = false.
Proof.
  intros this h.
  destruct (intermediate_directory_marker this (Some "/dir")) as [Hiff Hh].
  assert (Ho : Intermediate.open this (Some "/dir") = Some h) by reflexivity.
  split; [apply Hiff; rewrite Ho; discriminate|].
  split; [exact Ho|].
  destruct (Hh h Ho) as (Hdir & _ & Hmark).
  split; [exact Hdir|].
  destruct (Hmark "/dir"%string eq_refl) as [_ Hv]; [reflexivity | exact Hv].
Defined.

(** ** The compat reader against the file cursor *)

(** X16. The compat reader behaves as the file cursor on the same data,
    size and position: [read] returns the same count, fills the buffer
    the same way and moves to the same position, and on a reader with
    data [seek(pos)] is [seek(pos, SeekSet)] for every position that
    fits the cursor's [uint32_t] parameter. One difference is a reader
    without data, whose [seek] always fails. *)
Theorem compat_reader_simulates_cursor {T : Target} (f : EmbedFSFile.t)
        (path name : option string) :
  let g := EmbeddedFileImpl.mk path name (EmbedFSFile.dataPtr_ f)
             (EmbedFSFile.dataSize_ f) (EmbedFSFile.pos_ f) in
  let abs (r : EmbedFSFile.t) :=
    EmbeddedFileImpl.mk path name (EmbedFSFile.dataPtr_ r)
      (EmbedFSFile.dataSize_ r) (EmbedFSFile.pos_ r) in
  (forall buf len,
     let '(count, out, f') := EmbedFSFile.read f buf len in
     EmbeddedFileImpl.read g buf len = (count, out, abs f')) /\
  (forall pos,
     in_uint32 pos -> EmbedFSFile.dataPtr_ f <> None ->
     let '(ok, f') := EmbedFSFile.seek f pos in
     EmbeddedFileImpl.seek g pos SeekSet = (ok, abs f')) /\
  (forall pos,
     EmbedFSFile.dataPtr_ f = None ->
     EmbedFSFile.seek f pos = (false, f)) /\
  EmbedFSFile.valid f = EmbeddedFileImpl.valid g.
Proof.
  intros g abs. destruct f as [dp ds ps]. unfold g, abs.
  cbn [EmbedFSFile.dataPtr_ EmbedFSFile.dataSize_ EmbedFSFile.pos_].
  split; [|split; [|split]].
  - intros buf len. unfold EmbedFSFile.read, EmbeddedFileImpl.read.
    cbn [EmbedFSFile.dataPtr_ EmbedFSFile.dataSize_ EmbedFSFile.pos_
         EmbeddedFileImpl._data EmbeddedFileImpl._size EmbeddedFileImpl._pos].
    destruct dp; [|reflexivity].
    destruct (ds <=? ps); reflexivity.
  - intros pos Hpos Hdp. unfold EmbedFSFile.seek, EmbeddedFileImpl.seek.
    cbn [EmbedFSFile.dataPtr_ EmbedFSFile.dataSize_ EmbedFSFile.pos_
         EmbeddedFileImpl._size].
    destruct dp; [|contradiction].
    rewrite wrap_small
      by (pose proof UINT32_MOD_le; unfold in_uint32 in Hpos; lia).
    destruct (ds <? pos); reflexivity.
  - intros pos Hdp. unfold EmbedFSFile.seek.
    cbn [EmbedFSFile.dataPtr_] in *. now rewrite Hdp.
  - reflexivity.
Qed.

(** X16 (witness). *)
Lemma compat_reader_simulates_cursor_witness :
  let d := Some [Byte.x68; Byte.x69] in
  let f := EmbedFSFile.make d 2 in
  EmbedFSFile.seek f 1 = (true, EmbedFSFile.mk d 2 1) /\
  EmbeddedFileImpl.seek (T := ILP32)
    (EmbeddedFileImpl.mk None None d 2 0) 1 SeekSet
  = (true, EmbeddedFileImpl.mk None None d 2 1).
Proof.
  intros d f. split; [reflexivity|].
  destruct (compat_reader_simulates_cursor (T := ILP32) f None None)
    as (_ & Hseek & _).
  specialize (Hseek 1). cbn in Hseek. apply Hseek.
  - unfold in_uint32. rewrite UINT32_MOD_value. lia.
  - discriminate.
Defined.

(** ** The life cycle, from any state *)

(** X17. A call of [begin] that fails leaves the object exactly as it
    was, mounted or not, so a mounted index is never lost to a bad
    call; a call that succeeds replaces the index. The argument-less
    [begin] overload changes nothing and reports whether an index is
    installed: true after a successful [begin], false after [end]; and
    [end] is idempotent. *)
Theorem lifecycle_from_any_state (fs : EmbedFSFS.t)
        (file_names : option (list (option string)))
        (file_data : option (list (option (list Byte.byte))))
        (file_sizes : option (list Z)) (file_count : Z) :
  let r := EmbedFSFS.begin fs file_names file_data file_sizes file_count in
  (fst r = false -> snd r = fs) /\
  (fst r = true ->
   EmbedFSFS.begin_compat (snd r) = (true, snd r) /\
   forall path,
     EmbedFSFS.exists_ (snd r) path
     = match file_names, file_data, file_sizes with
       | Some names, Some data, Some sizes =>
           Full.exists_ (EmbedFSImpl_make names data sizes file_count) path
       | _, _, _ => false
       end) /\
  EmbedFSFS.begin_compat (EmbedFSFS.end_ fs)
  = (false, EmbedFSFS.end_ fs) /\
  EmbedFSFS.end_ (EmbedFSFS.end_ fs) = EmbedFSFS.end_ fs /\
  snd (EmbedFSFS.begin_compat fs) = fs.
Proof.
  intros r. unfold r, EmbedFSFS.begin.
  destruct file_names, file_data, file_sizes;
    try (cbn; repeat split; discriminate).
  destruct (file_count =? 0); cbn.
  - repeat split; discriminate.
  - repeat split; discriminate.
Qed.

(** X17 (witness): a bad call on a mounted object. *)
Lemma lifecycle_from_any_state_witness :
  let fs := snd (EmbedFSFS.begin EmbedFSFS.init
                   (Some [Some "/hello.txt"])
                   (Some [Some [Byte.x68; Byte.x69]]) (Some [2]) 1) in
  fst (EmbedFSFS.begin fs None None None 0) = false /\
  snd (EmbedFSFS.begin fs None None None 0) = fs /\
  EmbedFSFS.begin_compat fs = (true, fs).
Proof.
  intros fs.
  destruct (lifecycle_from_any_state fs None None None 0) as (Hkeep & _).
  destruct (lifecycle_from_any_state EmbedFSFS.init
              (Some [Some "/hello.txt"%string])
              (Some [Some [Byte.x68; Byte.x69]]) (Some [2]) 1)
    as (_ & Hok & _).
  split; [reflexivity|]. split; [apply Hkeep; reflexivity|].
  apply Hok. reflexivity.
Defined.
